(** * pifactory: digits of pi with 32-bit integer arithmetic

    A shallow embedding of [pifactory.c] and the properties of its
    numerical core: modular exponentiation, the fixed-iteration modular
    inverse, the trial-division prime oracle, the prime-power factor
    stripper, the two-word fixed-point accumulator and the digit-block
    extractor that composes them. *)

From Stdlib Require Import ZArith List Bool Lia Permutation.
Import ListNotations.

Local Open Scope Z_scope.

(** ** Outcomes of a C computation

    The program divides by values computed at run time and has one
    function whose last path has no [return].  Both are kept apart from
    ordinary results. *)

Inductive outcome (A : Type) : Type :=
| Ret (a : A)      (* normal completion *)
| Fault            (* integer division fault: zero divisor, or INT_MIN / -1 *)
| FellThrough      (* control reached the end of [factor_count] without a return *)
| OutOfFuel.       (* the model's loop budget was exhausted *)

Arguments Ret {A} a.
Arguments Fault {A}.
Arguments FellThrough {A}.
Arguments OutOfFuel {A}.

Definition bind {A B : Type} (c : outcome A) (k : A -> outcome B) : outcome B :=
  match c with
  | Ret a => k a
  | Fault => Fault
  | FellThrough => FellThrough
  | OutOfFuel => OutOfFuel
  end.

Notation "x <- c ;; k" := (bind c (fun x => k))
  (at level 61, c at next level, right associativity).
Notation "' p <- c ;; k" := (bind c (fun p => k))
  (at level 61, p pattern, c at next level, right associativity).

(** ** 32-bit signed integers

    An [int] is a [Z]; every arithmetic result is brought back into
    [INT_MIN .. INT_MAX] by two's-complement wrap-around. *)

Module Int32.

Definition INT_MIN : Z := -2147483648.
Definition INT_MAX : Z := 2147483647.

Definition in_range (z : Z) : bool := (INT_MIN <=? z) && (z <=? INT_MAX).

Definition wrap (z : Z) : Z := (z + 2147483648) mod 4294967296 - 2147483648.

Definition add (a b : Z) : Z := wrap (a + b).
Definition sub (a b : Z) : Z := wrap (a - b).
Definition mul (a b : Z) : Z := wrap (a * b).

(** [/] and [%] truncate toward zero; the machine faults on a zero
    divisor and on INT_MIN / -1. *)
Definition faults (a b : Z) : bool := (b =? 0) || ((a =? INT_MIN) && (b =? -1)).

Definition div (a b : Z) : outcome Z :=
  if faults a b then Fault else Ret (Z.quot a b).

Definition rem (a b : Z) : outcome Z :=
  if faults a b then Fault else Ret (Z.rem a b).

(** [(int)pow(x, y)] on integer arguments.  [pow] is exact whenever the
    power is an integer below 2^53; a negative exponent of a base of
    magnitude at least 2 gives a fraction, truncated to 0; a value
    outside the [int] range (or an infinity) converts to INT_MIN, the
    x86 "integer indefinite". *)
Definition pow (x y : Z) : Z :=
  if y <? 0 then
    if x =? 0 then INT_MIN
    else if x =? 1 then 1
    else if x =? -1 then (if Z.even y then 1 else -1)
    else 0
  else
    let v := x ^ y in
    if in_range v then v else INT_MIN.

End Int32.

(** ** Modular exponentiation *)

(** The loop [while (b > 0) { if (b & 1) ...; a = a * a % m; b >>= 1; }]
    walks the binary digits of [b] from the least significant one:
    [b & 1] is the head constructor of the positive number and [b >>= 1]
    drops it. *)
Fixpoint pow_mod_loop (b : positive) (a m result : Z) : outcome Z :=
  match b with
  | xH =>
      result <- Int32.rem (Int32.mul result a) m ;;
      _ <- Int32.rem (Int32.mul a a) m ;;
      Ret result
  | xO b' =>
      a <- Int32.rem (Int32.mul a a) m ;;
      pow_mod_loop b' a m result
  | xI b' =>
      result <- Int32.rem (Int32.mul result a) m ;;
      a <- Int32.rem (Int32.mul a a) m ;;
      pow_mod_loop b' a m result
  end.

Definition pow_mod (a b m : Z) : outcome Z :=
  match b with
  | Zpos p => pow_mod_loop p a m 1
  | _ => Ret 1
  end.

(** ** Modular inverse *)

Record euclid : Type := Euclid { ea : Z; eb : Z; ex : Z; ey : Z }.

(** One pass of the loop body: two division steps, each guarded against a
    zero divisor. *)
Definition inv_step (s : euclid) : outcome euclid :=
  let '(Euclid a b x y) := s in
  q <- (if a =? 0 then Ret 0 else Int32.div b a) ;;
  let b := Int32.sub b (Int32.mul a q) in
  let y := Int32.sub y (Int32.mul x q) in
  q <- (if b =? 0 then Ret 0 else Int32.div a b) ;;
  let a := Int32.sub a (Int32.mul b q) in
  let x := Int32.sub x (Int32.mul y q) in
  Ret (Euclid a b x y).

Fixpoint inv_loop (i : nat) (s : euclid) : outcome euclid :=
  match i with
  | O => Ret s
  | S i' => s' <- inv_step s ;; inv_loop i' s'
  end.

Definition inv_start (a m : Z) : euclid :=
  Euclid (if a <? 0 then Int32.add a m else a) m 1 0.

Definition inv_result (m : Z) (s : euclid) : Z :=
  if eb s =? 0 then ex s else Int32.add (ey s) m.

Definition inv_mod (a m : Z) : outcome Z :=
  s <- inv_loop 11 (inv_start a m) ;;
  Ret (inv_result m s).

(** ** Prime oracle *)

Definition SMALL_PRIMES : list Z :=
  [  2;   3;   5;   7;  11;  13;  17;  19;  23;  29;
    31;  37;  41;  43;  47;  53;  59;  61;  67;  71;
    73;  79;  83;  89;  97; 101; 103; 107; 109; 113;
   127; 131; 137; 139; 149; 151; 157; 163; 167; 173;
   179; 181; 191; 193; 197; 199; 211 ].

(** One pass of the test loop: [count++] when [n] is not divisible by the
    tabulated prime [q], and [count++] again when [n] is [q] itself. *)
Definition prime_test (n count q : Z) : Z :=
  let count := count + (if Z.rem n q =? 0 then 0 else 1) in
  count + (if n =? q then 1 else 0).

Definition is_prime (n : Z) : bool :=
  fold_left (prime_test n) SMALL_PRIMES 0 =? 47.

Fixpoint next_prime (fuel : nat) (n : Z) : outcome Z :=
  match fuel with
  | O => OutOfFuel
  | S fuel' =>
      let n := Int32.add n 1 in
      if is_prime n then Ret n else next_prime fuel' n
  end.

(** ** Prime-power factor stripper *)

(** The two globals [prime_power[10]] and [prime_power_count]. *)
Record globals : Type :=
  Globals { prime_power : list Z; prime_power_count : Z }.

Definition initial_globals : globals := Globals (repeat 0 10) 0.

Definition get (l : list Z) (i : nat) : Z := nth i l 0.

Fixpoint set (l : list Z) (i : nat) (v : Z) : list Z :=
  match l, i with
  | [], _ => []
  | _ :: t, O => v :: t
  | h :: t, S i' => h :: set t i' v
  end.

(** [factor_scan g j n] is the loop at index [i = j - 1]; it gives the
    returned index together with the updated [*n]. *)
Fixpoint factor_scan (g : globals) (j : nat) (n : Z) : outcome (Z * Z) :=
  match j with
  | O => FellThrough
  | S i =>
      r <- Int32.rem n (get (prime_power g) i) ;;
      if r =? 0 then
        q <- Int32.div n (get (prime_power g) i) ;;
        Ret (Z.of_nat i, q)
      else factor_scan g i n
  end.

Definition factor_count (g : globals) (n : Z) : outcome (Z * Z) :=
  factor_scan g (Z.to_nat (prime_power_count g)) n.

(** ** Fixed-point accumulator *)

(** [if (d > 60000) { d = d / 256; r = n % 256 * 125; n = n / 256; }],
    giving the new [(n, d, r)]. *)
Definition rescale (n d : Z) : Z * Z * Z :=
  if 60000 <? d then
    let d' := Z.quot d 256 in
    let r := Int32.mul (Z.rem n 256) 125 in
    let n' := Z.quot n 256 in
    (n', d', r)
  else (n, d, 0).

(** The rest of the routine, from [a = n * 32000 + r] on. *)
Definition fixed_point_add (a d hi lo : Z) : outcome (Z * Z) :=
  (* Digits 1 to 9 *)
  q <- Int32.div a d ;;
  let hi := Int32.add hi (Int32.mul q 31250) in
  r1 <- Int32.rem a d ;;
  let b := Int32.mul r1 31250 in
  q <- Int32.div b d ;;
  let hi := Int32.add hi q in
  (* Digits 10 to 18 *)
  r2 <- Int32.rem b d ;;
  let c := Int32.mul r2 32000 in
  q <- Int32.div c d ;;
  let lo := Int32.add lo (Int32.mul q 31250) in
  r3 <- Int32.rem c d ;;
  q <- Int32.div (Int32.mul r3 31250) d ;;
  let lo := Int32.add lo q in
  (* Carry *)
  let hi := if 1000000000 <? lo then Int32.add hi 1 else hi in
  (* Discard overflow digits *)
  Ret (Z.rem hi 1000000000, Z.rem lo 1000000000).

Definition fixed_point_sum (n d hi lo : Z) : outcome (Z * Z) :=
  let '(n, d, r) := rescale n d in
  let a := Int32.add (Int32.mul n 32000) r in
  fixed_point_add a d hi lo.

(** ** Digit-block extractor *)

Definition ROOT_50K : list Z := [50000; 50000; 223; 36; 14; 8; 6; 4; 3; 3].

(** [for (i = 0; i < 10; i++) if (prime <= ROOT_50K[i]) { ... }], run on
    the globals left behind by the previous prime. *)
Definition build_entry (prime : Z) (g : globals) (i : nat) : globals :=
  if prime <=? get ROOT_50K i then
    Globals (set (prime_power g) i (Int32.pow prime (Z.of_nat i)))
            (Int32.add (prime_power_count g) 1)
  else g.

Definition build_table (prime : Z) (g : globals) : globals :=
  fold_left (build_entry prime) (seq 0 10) (Globals (prime_power g) 0).

(** [exponent = -1; for (i < prime_power_count) if (prime_power[i] <= 3 * N) exponent++]. *)
Definition initial_exponent (g : globals) (N : Z) : Z :=
  fold_left
    (fun exponent i =>
       if get (prime_power g) i <=? Int32.mul 3 N
       then Int32.add exponent 1 else exponent)
    (seq 0 (Z.to_nat (prime_power_count g))) (-1).

Record series : Type :=
  Series { exponent : Z; numerator : Z; denominator : Z; subtotal : Z }.

(** Body of the main loop for one value of [k]. *)
Definition series_step (g : globals) (prime m k : Z) (s : series) : outcome series :=
  let '(Series exponent numerator denominator subtotal) := s in
  (* Terms for the numerator *)
  let t1 := Int32.mul 2 k in
  let t2 := Int32.sub (Int32.mul 2 k) 1 in
  '(i, t1) <- factor_count g t1 ;;
  let exponent := Int32.add exponent i in
  '(i, t2) <- factor_count g t2 ;;
  let exponent := Int32.add exponent i in
  r1 <- Int32.rem t1 m ;;
  r2 <- Int32.rem t2 m ;;
  terms <- Int32.rem (Int32.mul r1 r2) m ;;
  numerator <- Int32.rem (Int32.mul numerator terms) m ;;
  (* Terms for the denominator *)
  let t3 := Int32.sub (Int32.mul 6 k) 4 in
  let t4 := Int32.sub (Int32.mul 9 k) 3 in
  '(i, t3) <- factor_count g t3 ;;
  let exponent := Int32.sub exponent i in
  '(i, t4) <- factor_count g t4 ;;
  let exponent := Int32.sub exponent i in
  r3 <- Int32.rem t3 m ;;
  r4 <- Int32.rem t4 m ;;
  terms <- Int32.rem (Int32.mul r3 r4) m ;;
  denominator <- Int32.rem (Int32.mul denominator terms) m ;;
  (* Multiply all parts together *)
  t <- Int32.rem (Int32.sub (Int32.mul 50 k) 6) m ;;
  t <- Int32.rem (Int32.mul t (Int32.pow prime exponent)) m ;;
  t <- Int32.rem (Int32.mul t numerator) m ;;
  inv <- inv_mod denominator m ;;
  let t := Int32.mul t inv in
  subtotal <- Int32.rem (Int32.add subtotal t) m ;;
  Ret (Series exponent numerator denominator subtotal).

(** [for (k = ...; k <= N; k++)] with [n] passes left. *)
Fixpoint series_loop (n : nat) (g : globals) (prime m k : Z) (s : series)
  : outcome series :=
  match n with
  | O => Ret s
  | S n' =>
      s' <- series_step g prime m k s ;;
      series_loop n' g prime m (Int32.add k 1) s'
  end.

Record pi_state : Type :=
  PiState { tables : globals; sum : Z; sum_low : Z }.

(** Everything after the prime-2 special case: decimal shift, main loop,
    accumulation. *)
Definition accumulate_prime (start_digit N prime m exponent : Z) (st : pi_state)
  : outcome pi_state :=
  let decimal := if prime =? 2 then 5 else 10 in
  decimal_shift <- pow_mod decimal start_digit m ;;
  s <- series_loop (Z.to_nat N) (tables st) prime m 1 (Series exponent 1 1 0) ;;
  subtotal <- Int32.rem (Int32.mul (subtotal s) decimal_shift) m ;;
  '(hi, lo) <- fixed_point_sum subtotal m (sum st) (sum_low st) ;;
  Ret (PiState (tables st) hi lo).

(** Body of the loop over primes.  The [continue] of the prime-2 case
    leaves the accumulator as it is. *)
Definition pi_body (start_digit N prime : Z) (st : pi_state) : outcome pi_state :=
  let g := build_table prime (tables st) in
  let st := PiState g (sum st) (sum_low st) in
  let exponent := initial_exponent g N in
  let m := Int32.pow prime exponent in
  if prime =? 2 then
    let exponent := Int32.add exponent (Int32.sub N 1) in
    let m := Int32.pow prime (Int32.sub exponent start_digit) in
    if m =? 0 then Ret st
    else accumulate_prime start_digit N prime m exponent st
  else accumulate_prime start_digit N prime m exponent st.

Fixpoint pi_loop (fuel : nat) (start_digit N prime : Z) (st : pi_state)
  : outcome pi_state :=
  match fuel with
  | O => OutOfFuel
  | S fuel' =>
      if prime <=? Int32.mul 3 N then
        st' <- pi_body start_digit N prime st ;;
        prime' <- next_prime fuel' prime ;;
        pi_loop fuel' start_digit N prime' st'
      else Ret st
  end.

Definition term_count (start_digit : Z) : Z :=
  Z.quot (Int32.mul (Int32.add start_digit 19) 238) 269.

Definition pi_digits (fuel : nat) (start_digit : Z) : outcome Z :=
  st <- pi_loop fuel start_digit (term_count start_digit) 2
          (PiState initial_globals 0 0) ;;
  Ret (sum st).


(** ** The calling shell

    [main] prints "3." when the first requested digit is 0 and then one
    9-digit block per step of 9, each computed by [pi_digits (i)] for
    [i = start - 1, start + 8, ...] while [i < end].  The printed text is
    modelled by the prefix flag and the list of blocks. *)

Fixpoint print_blocks (n fuel : nat) (i end_digit : Z) : outcome (list Z) :=
  if i <? end_digit then
    match n with
    | O => OutOfFuel
    | S n' =>
        block <- pi_digits fuel i ;;
        rest <- print_blocks n' fuel (Int32.add i 9) end_digit ;;
        Ret (block :: rest)
    end
  else Ret [].

Definition main_digits (fuel : nat) (start end_digit : Z) : outcome (bool * list Z) :=
  let prefix := start =? 0 in
  let start := if start =? 0 then Int32.add start 1 else start in
  blocks <- print_blocks fuel fuel (Int32.sub start 1) end_digit ;;
  Ret (prefix, blocks).

(** Folding a sequence of fractions [n / d] into an accumulator pair by
    repeated calls of [fixed_point_sum]. *)
Fixpoint accumulate (fs : list (Z * Z)) (acc : Z * Z) : outcome (Z * Z) :=
  match fs with
  | [] => Ret acc
  | (n, d) :: rest =>
      acc' <- fixed_point_sum n d (fst acc) (snd acc) ;;
      accumulate rest acc'
  end.

(** * Properties *)

(** ** Machine arithmetic inside the [int] range *)

Lemma wrap_id (z : Z) :
  Int32.INT_MIN <= z <= Int32.INT_MAX -> Int32.wrap z = z.
Proof.
  unfold Int32.wrap, Int32.INT_MIN, Int32.INT_MAX. intros H.
  rewrite Z.mod_small; lia.
Qed.

Lemma wrap_range (z : Z) :
  Int32.INT_MIN <= Int32.wrap z <= Int32.INT_MAX.
Proof.
  unfold Int32.wrap, Int32.INT_MIN, Int32.INT_MAX.
  pose proof (Z.mod_pos_bound (z + 2147483648) 4294967296 ltac:(lia)). lia.
Qed.

Lemma add_id (a b : Z) :
  Int32.INT_MIN <= a + b <= Int32.INT_MAX -> Int32.add a b = a + b.
Proof. apply wrap_id. Qed.

Lemma sub_id (a b : Z) :
  Int32.INT_MIN <= a - b <= Int32.INT_MAX -> Int32.sub a b = a - b.
Proof. apply wrap_id. Qed.

Lemma mul_id (a b : Z) :
  Int32.INT_MIN <= a * b <= Int32.INT_MAX -> Int32.mul a b = a * b.
Proof. apply wrap_id. Qed.

Lemma div_pos (a b : Z) : 0 < b -> Int32.div a b = Ret (Z.quot a b).
Proof.
  intros H. unfold Int32.div, Int32.faults.
  destruct (Z.eqb_spec b 0); [lia|].
  destruct (Z.eqb_spec b (-1)); [lia|].
  now rewrite andb_false_r.
Qed.

Lemma rem_pos (a b : Z) : 0 < b -> Int32.rem a b = Ret (Z.rem a b).
Proof.
  intros H. unfold Int32.rem, Int32.faults.
  destruct (Z.eqb_spec b 0); [lia|].
  destruct (Z.eqb_spec b (-1)); [lia|].
  now rewrite andb_false_r.
Qed.

Lemma rem_zero (a : Z) : Int32.rem a 0 = Fault.
Proof. reflexivity. Qed.

(** ** Fixed-point accumulator *)

Definition WORD : Z := 1000000000.

(** Splitting a scaled quotient the way the routine does. *)
Lemma scaled_div (a d k : Z) :
  0 < d -> Z.div a d * k + Z.div (Z.modulo a d * k) d = Z.div (a * k) d.
Proof.
  intros Hd.
  rewrite (Z.div_mod a d) at 3 by lia.
  replace ((d * (a / d) + a mod d) * k) with ((a / d * k) * d + a mod d * k) by ring.
  rewrite Z.div_add_l by lia. reflexivity.
Qed.

Lemma scaled_mod (a d k : Z) :
  0 < d -> Z.modulo (Z.modulo a d * k) d = Z.modulo (a * k) d.
Proof.
  intros Hd. rewrite Z.mul_mod_idemp_l by lia. reflexivity.
Qed.

Definition high_digits (a d : Z) : Z := Z.div (a * 31250) d.
Definition low_digits (a d : Z) : Z := Z.div (Z.modulo (a * 31250) d * WORD) d.

Lemma high_digits_range (a d : Z) :
  0 < d -> 0 <= a < 32000 * d -> 0 <= high_digits a d < WORD.
Proof.
  intros Hd Ha. unfold high_digits, WORD. split.
  - apply Z.div_pos; lia.
  - apply Z.div_lt_upper_bound; lia.
Qed.

Lemma low_digits_range (a d : Z) :
  0 < d -> 0 <= low_digits a d < WORD.
Proof.
  intros Hd. unfold low_digits, WORD.
  pose proof (Z.mod_pos_bound (a * 31250) d Hd). split.
  - apply Z.div_pos; lia.
  - apply Z.div_lt_upper_bound; nia.
Qed.

(** The two digit groups together are the 18-digit quotient. *)
Lemma digits_quotient (a d : Z) :
  0 < d ->
  high_digits a d * WORD + low_digits a d = Z.div (a * 31250 * WORD) d.
Proof.
  intros Hd. unfold high_digits, low_digits.
  rewrite <- (scaled_div (a * 31250) d WORD Hd). reflexivity.
Qed.

(** What [fixed_point_add] computes when nothing overflows. *)
Lemma fixed_point_add_spec (a d hi lo : Z) :
  0 < d <= 60000 -> 0 <= a < 32000 * d ->
  0 <= hi < WORD -> 0 <= lo < WORD ->
  fixed_point_add a d hi lo =
    Ret (Z.modulo (hi + high_digits a d
                   + (if WORD <? lo + low_digits a d then 1 else 0)) WORD,
         Z.modulo (lo + low_digits a d) WORD).
Proof.
  intros Hd Ha Hhi Hlo.
  pose proof (high_digits_range a d ltac:(lia) Ha) as HH.
  pose proof (low_digits_range a d ltac:(lia)) as HL.
  unfold WORD in *.
  assert (Hd0 : 0 < d) by lia.
  unfold fixed_point_add.
  rewrite !(div_pos _ d Hd0); cbn [bind].
  rewrite !(rem_pos _ d Hd0); cbn [bind].
  rewrite !(div_pos _ d Hd0); cbn [bind].
  rewrite !(rem_pos _ d Hd0); cbn [bind].
  rewrite !(div_pos _ d Hd0); cbn [bind].
  rewrite !(rem_pos _ d Hd0); cbn [bind].
  rewrite !(div_pos _ d Hd0); cbn [bind].
  (* a / d and a % d *)
  rewrite (Z.quot_div_nonneg a d) by lia.
  rewrite (Z.rem_mod_nonneg a d) by lia.
  pose proof (Z.mod_pos_bound a d Hd0) as Hr1.
  assert (Hq1 : 0 <= a / d < 32000).
  { split; [apply Z.div_pos; lia | apply Z.div_lt_upper_bound; lia]. }
  rewrite (mul_id (a / d) 31250) by (unfold Int32.INT_MIN, Int32.INT_MAX; lia).
  rewrite (mul_id (a mod d) 31250) by (unfold Int32.INT_MIN, Int32.INT_MAX; nia).
  set (b := a mod d * 31250).
  assert (Hb : 0 <= b < 31250 * d) by (unfold b; nia).
  rewrite (Z.quot_div_nonneg b d) by lia.
  rewrite (Z.rem_mod_nonneg b d) by lia.
  pose proof (Z.mod_pos_bound b d Hd0) as Hr2.
  assert (Hq2 : 0 <= b / d < 31250).
  { split; [apply Z.div_pos; lia | apply Z.div_lt_upper_bound; lia]. }
  assert (EH : a / d * 31250 + b / d = high_digits a d).
  { unfold b, high_digits. apply scaled_div; lia. }
  rewrite (add_id hi) by (unfold Int32.INT_MIN, Int32.INT_MAX; lia).
  rewrite (add_id (hi + _)) by (unfold Int32.INT_MIN, Int32.INT_MAX; lia).
  replace (hi + a / d * 31250 + b / d) with (hi + high_digits a d) by lia.
  assert (ER : b mod d = (a * 31250) mod d).
  { unfold b. apply scaled_mod; lia. }
  rewrite (mul_id (b mod d) 32000) by (unfold Int32.INT_MIN, Int32.INT_MAX; nia).
  set (c := b mod d * 32000).
  assert (Hc : 0 <= c < 32000 * d) by (unfold c; nia).
  rewrite (Z.quot_div_nonneg c d) by lia.
  rewrite (Z.rem_mod_nonneg c d) by lia.
  pose proof (Z.mod_pos_bound c d Hd0) as Hr3.
  assert (Hq3 : 0 <= c / d < 32000).
  { split; [apply Z.div_pos; lia | apply Z.div_lt_upper_bound; lia]. }
  rewrite (mul_id (c / d) 31250) by (unfold Int32.INT_MIN, Int32.INT_MAX; lia).
  rewrite (mul_id (c mod d) 31250) by (unfold Int32.INT_MIN, Int32.INT_MAX; nia).
  rewrite (Z.quot_div_nonneg (c mod d * 31250) d) by nia.
  assert (EL : c / d * 31250 + (c mod d * 31250) / d = low_digits a d).
  { rewrite scaled_div by lia. unfold c, low_digits, WORD. rewrite ER.
    f_equal. ring. }
  rewrite (add_id lo) by (unfold Int32.INT_MIN, Int32.INT_MAX; lia).
  assert (0 <= c mod d * 31250 / d) by (apply Z.div_pos; nia).
  rewrite (add_id (lo + _)) by (unfold Int32.INT_MIN, Int32.INT_MAX; lia).
  replace (lo + c / d * 31250 + c mod d * 31250 / d) with (lo + low_digits a d) by lia.
  destruct (1000000000 <? lo + low_digits a d).
  - rewrite add_id by (unfold Int32.INT_MIN, Int32.INT_MAX; lia).
    rewrite !Z.rem_mod_nonneg by lia. reflexivity.
  - rewrite !Z.rem_mod_nonneg by lia. rewrite Z.add_0_r. reflexivity.
Qed.

(** The documented contract of the accumulator: a proper fraction over a
    denominator of at most 60000, or over a power of two up to 2^23. *)
Definition fraction_ok (n d : Z) : Prop :=
  0 <= n < d /\ (d <= 60000 \/ exists k, 0 <= k <= 23 /\ d = 2 ^ k).

Definition word_ok (w : Z) : Prop := 0 <= w < WORD.

(** Digits 1..9 and 10..18 of [n / d], truncated. *)
Definition frac_high (n d : Z) : Z := Z.div (n * WORD) d.
Definition frac_low (n d : Z) : Z := Z.div (Z.modulo (n * WORD) d * WORD) d.

Lemma frac_digits (n d : Z) :
  0 < d -> frac_high n d * WORD + frac_low n d = Z.div (n * (WORD * WORD)) d.
Proof.
  intros Hd. unfold frac_high, frac_low.
  rewrite Z.mul_assoc. symmetry. rewrite <- (scaled_div (n * WORD) d WORD Hd).
  reflexivity.
Qed.

Lemma big_power_of_two (d k : Z) :
  60000 < d -> 0 <= k <= 23 -> d = 2 ^ k ->
  d = 256 * Z.quot d 256 /\ 256 <= Z.quot d 256 <= 32768.
Proof.
  intros Hbig Hk ->.
  assert (16 <= k).
  { destruct (Z_lt_le_dec k 16) as [Hlt|]; [|assumption].
    pose proof (Z.pow_le_mono_r 2 k 15 ltac:(lia) ltac:(lia)) as Hle.
    change (2 ^ 15) with 32768 in Hle. lia. }
  replace k with (8 + (k - 8)) by lia.
  rewrite Z.pow_add_r by lia. change (2 ^ 8) with 256.
  rewrite Z.mul_comm, Z.quot_mul by lia.
  pose proof (Z.pow_le_mono_r 2 8 (k - 8) ltac:(lia) ltac:(lia)) as Hlo.
  pose proof (Z.pow_le_mono_r 2 (k - 8) 15 ltac:(lia) ltac:(lia)) as Hhi.
  change (2 ^ 8) with 256 in Hlo. change (2 ^ 15) with 32768 in Hhi. lia.
Qed.

(** After rescaling, the numerator [a] over the new denominator is the
    same fraction as [32000 * n / d], in range for [fixed_point_add]. *)
Lemma rescale_spec (n d : Z) :
  fraction_ok n d ->
  let '(n', d', r) := rescale n d in
  let a := Int32.add (Int32.mul n' 32000) r in
  0 < d' <= 60000 /\ 0 <= a < 32000 * d' /\
  high_digits a d' = frac_high n d /\ low_digits a d' = frac_low n d.
Proof.
  intros [Hn Hd]. unfold rescale.
  destruct (Z.ltb_spec 60000 d) as [Hbig|Hsmall].
  - destruct Hd as [Hd|(k & Hk & Hd)]; [lia|].
    destruct (big_power_of_two d k Hbig Hk Hd) as [E Hq].
    set (d' := Z.quot d 256) in *.
    rewrite (Z.quot_div_nonneg n 256), (Z.rem_mod_nonneg n 256) by lia.
    pose proof (Z.mod_pos_bound n 256 ltac:(lia)) as Hr.
    pose proof (Z.div_mod n 256 ltac:(lia)) as En.
    assert (Hn' : 0 <= n / 256 < d').
    { split; [apply Z.div_pos; lia | apply Z.div_lt_upper_bound; lia]. }
    rewrite (mul_id (n mod 256)) by (unfold Int32.INT_MIN, Int32.INT_MAX; lia).
    rewrite (mul_id (n / 256)) by (unfold Int32.INT_MIN, Int32.INT_MAX; lia).
    rewrite add_id by (unfold Int32.INT_MIN, Int32.INT_MAX; lia).
    replace (n / 256 * 32000 + n mod 256 * 125) with (125 * n) by lia.
    cbv zeta. split; [lia|]. split; [lia|].
    unfold high_digits, low_digits, frac_high, frac_low, WORD.
    rewrite E.
    replace (n * 1000000000) with (256 * (125 * n * 31250)) by ring.
    rewrite Z.mul_mod_distr_l by lia.
    rewrite <- (Z.mul_assoc 256 _ 1000000000).
    rewrite !Z.div_mul_cancel_l by lia. split; reflexivity.
  - assert (0 < d) by lia.
    rewrite (mul_id n) by (unfold Int32.INT_MIN, Int32.INT_MAX; lia).
    rewrite add_id by (unfold Int32.INT_MIN, Int32.INT_MAX; lia).
    cbv zeta. split; [lia|]. split; [lia|].
    unfold high_digits, low_digits, frac_high, frac_low, WORD.
    replace (n * 1000000000) with ((n * 32000 + 0) * 31250) by ring.
    split; reflexivity.
Qed.

Definition carry (lo n d : Z) : Z := if WORD <? lo + frac_low n d then 1 else 0.

(** The routine on a fraction within its contract. *)
Lemma fixed_point_sum_spec (n d hi lo : Z) :
  fraction_ok n d -> word_ok hi -> word_ok lo ->
  fixed_point_sum n d hi lo =
    Ret (Z.modulo (hi + frac_high n d + carry lo n d) WORD,
         Z.modulo (lo + frac_low n d) WORD).
Proof.
  intros Hf Hhi Hlo. unfold fixed_point_sum, carry.
  pose proof (rescale_spec n d Hf) as R.
  destruct (rescale n d) as [[n' d'] r]. cbv zeta in R.
  destruct R as (Hd' & Ha & EH & EL).
  cbv zeta. rewrite fixed_point_add_spec by assumption.
  rewrite EH, EL. reflexivity.
Qed.

Lemma fixed_point_sum_words (n d hi lo : Z) :
  fraction_ok n d -> word_ok hi -> word_ok lo ->
  exists hi' lo',
    fixed_point_sum n d hi lo = Ret (hi', lo') /\ word_ok hi' /\ word_ok lo'.
Proof.
  intros Hf Hhi Hlo. rewrite fixed_point_sum_spec by assumption.
  eexists _, _. split; [reflexivity|].
  unfold word_ok, WORD. split; apply Z.mod_pos_bound; lia.
Qed.

(** Apart from the one sum [lo + frac_low n d = WORD], the routine is
    truncating 18-digit addition modulo 1. *)
Lemma fixed_point_sum_exact (n d hi lo : Z) :
  fraction_ok n d -> word_ok hi -> word_ok lo ->
  lo + frac_low n d <> WORD ->
  exists hi' lo',
    fixed_point_sum n d hi lo = Ret (hi', lo') /\
    hi' * WORD + lo' =
      Z.modulo (hi * WORD + lo + Z.div (n * (WORD * WORD)) d) (WORD * WORD).
Proof.
  intros Hf Hhi Hlo Hne.
  rewrite fixed_point_sum_spec by assumption.
  eexists _, _. split; [reflexivity|].
  assert (Hd : 0 < d) by (destruct Hf; lia).
  rewrite <- (frac_digits n d Hd).
  pose proof (low_digits_range (32000 * n) d Hd) as HL.
  assert (EL : low_digits (32000 * n) d = frac_low n d).
  { unfold low_digits, frac_low, WORD. do 3 f_equal. ring. }
  rewrite EL in HL. clear EL.
  unfold carry. set (H := frac_high n d) in *. set (L := frac_low n d) in *.
  unfold word_ok, WORD in *.
  destruct (Z.ltb_spec 1000000000 (lo + L)) as [Hc|Hc].
  - replace (hi * 1000000000 + lo + (H * 1000000000 + L))
      with ((hi + H + 1) * 1000000000 + (lo + L - 1000000000)) by ring.
    replace ((lo + L) mod 1000000000) with (lo + L - 1000000000).
    2:{ apply Z.mod_unique with 1; lia. }
    set (x := hi + H + 1). set (y := lo + L - 1000000000).
    assert (Hy : 0 <= y < 1000000000) by (unfold y; lia).
    pose proof (Z.div_mod x 1000000000 ltac:(lia)) as Ex.
    pose proof (Z.mod_pos_bound x 1000000000 ltac:(lia)) as Bx.
    apply Z.mod_unique with (x / 1000000000); lia.
  - rewrite Z.add_0_r.
    replace (hi * 1000000000 + lo + (H * 1000000000 + L))
      with ((hi + H) * 1000000000 + (lo + L)) by ring.
    rewrite (Z.mod_small (lo + L)) by lia.
    set (x := hi + H). set (y := lo + L).
    assert (Hy : 0 <= y < 1000000000) by (unfold y; lia).
    pose proof (Z.div_mod x 1000000000 ltac:(lia)) as Ex.
    pose proof (Z.mod_pos_bound x 1000000000 ltac:(lia)) as Bx.
    apply Z.mod_unique with (x / 1000000000); lia.
Qed.

(** Contract-respecting sequences keep both words in range. *)
Lemma accumulate_words (fs : list (Z * Z)) :
  Forall (fun f => fraction_ok (fst f) (snd f)) fs ->
  forall acc, word_ok (fst acc) -> word_ok (snd acc) ->
  exists acc', accumulate fs acc = Ret acc' /\ word_ok (fst acc') /\ word_ok (snd acc').
Proof.
  induction 1 as [|[n d] rest Hf _ IH]; intros acc Hhi Hlo; cbn [accumulate].
  - exists acc. auto.
  - destruct (fixed_point_sum_words n d _ _ Hf Hhi Hlo) as (hi' & lo' & E & Hh & Hl).
    rewrite E. cbn [bind]. apply IH; assumption.
Qed.

(** ** Fuel *)

Lemma next_prime_S (f : nat) (n : Z) :
  next_prime (S f) n =
    if is_prime (Int32.add n 1) then Ret (Int32.add n 1)
    else next_prime f (Int32.add n 1).
Proof. reflexivity. Qed.

Lemma pi_loop_S (f : nat) (start_digit N prime : Z) (st : pi_state) :
  pi_loop (S f) start_digit N prime st =
    if prime <=? Int32.mul 3 N then
      st' <- pi_body start_digit N prime st ;;
      prime' <- next_prime f prime ;;
      pi_loop f start_digit N prime' st'
    else Ret st.
Proof. reflexivity. Qed.

Lemma next_prime_mono (f : nat) :
  forall n p f', next_prime f n = Ret p -> (f <= f')%nat -> next_prime f' n = Ret p.
Proof.
  induction f as [|f IH]; intros n p f' E Hle; [discriminate|].
  destruct f' as [|f']; [lia|].
  rewrite next_prime_S in *.
  destruct (is_prime (Int32.add n 1)); [assumption|].
  apply IH; [assumption | lia].
Qed.

Lemma pi_loop_mono (start_digit N : Z) (f : nat) :
  forall prime st r f',
    pi_loop f start_digit N prime st = Ret r -> (f <= f')%nat ->
    pi_loop f' start_digit N prime st = Ret r.
Proof.
  induction f as [|f IH]; intros prime st r f' E Hle; [discriminate|].
  destruct f' as [|f']; [lia|].
  rewrite pi_loop_S in *.
  destruct (prime <=? Int32.mul 3 N); [|assumption].
  destruct (pi_body start_digit N prime st) as [st'| | |]; try discriminate.
  unfold bind at 1. unfold bind at 1 in E.
  destruct (next_prime f prime) as [p| | |] eqn:Ep; try discriminate.
  rewrite (next_prime_mono f prime p f' Ep) by lia.
  unfold bind at 1. unfold bind at 1 in E.
  apply IH; [assumption | lia].
Qed.

Lemma pi_digits_mono (f f' : nat) (start_digit r : Z) :
  pi_digits f start_digit = Ret r -> (f <= f')%nat ->
  pi_digits f' start_digit = Ret r.
Proof.
  unfold pi_digits. intros E Hle.
  destruct (pi_loop f _ _ _ _) as [st| | |] eqn:El; try discriminate.
  rewrite (pi_loop_mono _ _ f _ _ st f' El Hle). assumption.
Qed.

(** ** The first digit block *)

Lemma print_blocks_done (n fuel : nat) (i end_digit : Z) :
  end_digit <= i -> print_blocks n fuel i end_digit = Ret [].
Proof.
  intros H. destruct n; cbn [print_blocks];
    destruct (Z.ltb_spec i end_digit); try lia; reflexivity.
Qed.

(** C1: the block that starts at the first decimal digit is 141592653.
    The shell asked for digits 1..1 makes the single call [pi_digits (0)],
    and that call returns 141592653 under every sufficient loop budget. *)
Theorem pi_digits_first_block (fuel : nat) :
  (21 <= fuel)%nat ->
  pi_digits fuel 0 = Ret 141592653 /\
  main_digits fuel 1 1 = Ret (false, [141592653]).
Proof.
  intros Hfuel.
  assert (E : pi_digits fuel 0 = Ret 141592653).
  { apply (pi_digits_mono 21); [vm_compute; reflexivity | assumption]. }
  split; [assumption|].
  unfold main_digits.
  change (1 =? 0) with false. cbv iota.
  change (Int32.sub 1 1) with 0.
  destruct fuel as [|fuel']; [lia|].
  cbn [print_blocks]. change (0 <? 1) with true. cbv iota.
  rewrite E. cbn [bind].
  rewrite print_blocks_done by (vm_compute; discriminate).
  reflexivity.
Qed.

Lemma pi_digits_first_block_witness :
  pi_digits 21 0 = Ret 141592653 /\
  main_digits 21 1 1 = Ret (false, [141592653]).
Proof. apply (pi_digits_first_block 21). lia. Defined.

(** ** Accumulator: carry and word range *)

(** C3: the routine is not exact when the low words add up to exactly
    10^9.  Adding 1/3 to 0.000000000666666667 gives 0.333333333000000000:
    the low word is reset to 0 without a carry, where truncating 18-digit
    addition gives 0.333333334000000000. *)
Theorem fixed_point_sum_drops_carry :
  fraction_ok 1 3 /\ word_ok 0 /\ word_ok 666666667 /\
  fixed_point_sum 1 3 0 666666667 = Ret (333333333, 0) /\
  Z.modulo (0 * WORD + 666666667 + Z.div (1 * (WORD * WORD)) 3) (WORD * WORD)
    = 333333334 * WORD + 0.
Proof.
  unfold fraction_ok, word_ok, WORD.
  split; [split; [lia | left; lia]|].
  repeat split; try lia; vm_compute; reflexivity.
Qed.

(** C8 (as amended): a call within the contract, entered with both words
    in [0, 10^9), returns with both words in [0, 10^9). *)
Theorem accumulator_word_range (n d hi lo : Z) :
  fraction_ok n d -> word_ok hi -> word_ok lo ->
  exists hi' lo',
    fixed_point_sum n d hi lo = Ret (hi', lo') /\ word_ok hi' /\ word_ok lo'.
Proof. apply fixed_point_sum_words. Qed.

Lemma accumulator_word_range_witness :
  exists hi' lo',
    fixed_point_sum 1 3 999999999 999999999 = Ret (hi', lo') /\
    word_ok hi' /\ word_ok lo'.
Proof.
  apply (accumulator_word_range 1 3 999999999 999999999).
  - unfold fraction_ok. split; [lia | left; lia].
  - unfold word_ok, WORD. lia.
  - unfold word_ok, WORD. lia.
Defined.

(** C8, as stated, fails inside [pi_digits]: for start digit 1 the
    prime-2 pass hands the accumulator the numerator -372608 over 2^20,
    and both words come back negative. *)
Lemma accumulator_words_negative_after_prime_two :
  exists st',
    pi_body 1 (term_count 1) 2 (PiState initial_globals 0 0) = Ret st' /\
    sum st' = -355346679 /\ sum_low st' = -687500000 /\
    ~ word_ok (sum st') /\ ~ word_ok (sum_low st').
Proof.
  eexists. split; [vm_compute; reflexivity|].
  cbn [sum sum_low]. unfold word_ok, WORD.
  repeat split; lia.
Qed.

(** C9: the final pair depends on the order.  1/1024 and 3/1024 have low
    words that add up to exactly 10^9; taken one after the other the
    carry is lost, taken with 1/3 in between it is not. *)
Theorem accumulate_order_dependent :
  let A := [(1, 1024); (3, 1024); (1, 3)] in
  let B := [(1, 1024); (1, 3); (3, 1024)] in
  Permutation A B /\
  Forall (fun f => fraction_ok (fst f) (snd f)) A /\
  accumulate A (0, 0) = Ret (337239582, 333333333) /\
  accumulate B (0, 0) = Ret (337239583, 333333333).
Proof.
  cbv zeta. split; [|split; [|split]].
  - apply perm_skip. apply perm_swap.
  - repeat constructor; cbn [fst snd]; try lia; left; lia.
  - vm_compute. reflexivity.
  - vm_compute. reflexivity.
Qed.

(** ** Factor stripper *)

(** The table of a prime [p]: [prime_power_count] entries, entry [i]
    holding [p ^ i]. *)
Definition power_table (p : Z) (g : globals) : Prop :=
  1 <= prime_power_count g /\
  forall i : nat, Z.of_nat i < prime_power_count g ->
                  get (prime_power g) i = p ^ Z.of_nat i.

Lemma factor_scan_S (g : globals) (i : nat) (n : Z) :
  factor_scan g (S i) n =
    r <- Int32.rem n (get (prime_power g) i) ;;
    if r =? 0 then
      q <- Int32.div n (get (prime_power g) i) ;;
      Ret (Z.of_nat i, q)
    else factor_scan g i n.
Proof. reflexivity. Qed.

Lemma factor_scan_max (g : globals) (p t : Z) :
  2 <= p -> power_table p g ->
  forall j : nat,
    Z.of_nat (S j) <= prime_power_count g ->
    (forall i' : nat, (S j <= i')%nat -> Z.of_nat i' < prime_power_count g ->
                      ~ (p ^ Z.of_nat i' | t)) ->
    exists i : nat,
      (i <= j)%nat /\
      factor_scan g (S j) t = Ret (Z.of_nat i, Z.quot t (p ^ Z.of_nat i)) /\
      (p ^ Z.of_nat i | t) /\
      (forall i' : nat, (i < i')%nat -> Z.of_nat i' < prime_power_count g ->
                        ~ (p ^ Z.of_nat i' | t)).
Proof.
  intros Hp [Hc Htab]. induction j as [|j IH]; intros Hj Hmax.
  - exists O. rewrite factor_scan_S, Htab by lia.
    change (p ^ Z.of_nat 0) with 1.
    rewrite rem_pos by lia. unfold bind at 1. rewrite Z.rem_1_r.
    change (0 =? 0) with true. cbv iota.
    rewrite div_pos by lia. unfold bind at 1.
    repeat split; [lia | apply Z.divide_1_l | assumption].
  - assert (Hpos : 0 < p ^ Z.of_nat (S j)) by (apply Z.pow_pos_nonneg; lia).
    rewrite factor_scan_S, Htab by lia.
    rewrite rem_pos by assumption. unfold bind at 1.
    destruct (Z.eqb_spec (Z.rem t (p ^ Z.of_nat (S j))) 0) as [E|E].
    + exists (S j). rewrite div_pos by assumption. unfold bind at 1.
      repeat split; [lia | | assumption].
      apply Z.rem_divide; [lia | assumption].
    + destruct IH as (i & Hi & Es & Hd & Hm).
      * lia.
      * intros i' Hi' Hlt. destruct (Nat.eq_dec i' (S j)) as [->|Hne].
        -- intros Hdiv. apply E. apply Z.rem_divide; [lia | assumption].
        -- apply Hmax; [lia | assumption].
      * exists i. repeat split; [lia | assumption | assumption | assumption].
Qed.

(** C5: on the power table of a prime [p], one call strips the largest
    tabulated power of [p] that divides [t] and returns its index; when
    that index is not the last one, the quotient is not divisible by
    [p]. *)
Theorem factor_count_strips_maximal_power (g : globals) (p t : Z) :
  2 <= p -> power_table p g ->
  exists i : nat,
    Z.of_nat i < prime_power_count g /\
    factor_count g t = Ret (Z.of_nat i, Z.quot t (p ^ Z.of_nat i)) /\
    (p ^ Z.of_nat i | t) /\
    (forall i' : nat, (i < i')%nat -> Z.of_nat i' < prime_power_count g ->
                      ~ (p ^ Z.of_nat i' | t)) /\
    (Z.of_nat i < prime_power_count g - 1 ->
     ~ (p | Z.quot t (p ^ Z.of_nat i))).
Proof.
  intros Hp Htab. pose proof Htab as [Hc _].
  unfold factor_count.
  destruct (Z.to_nat (prime_power_count g)) as [|j] eqn:Ej; [lia|].
  destruct (factor_scan_max g p t Hp Htab j) as (i & Hi & Es & Hd & Hm).
  - lia.
  - intros i' Hi' Hlt. lia.
  - exists i. split; [lia|]. split; [assumption|]. split; [assumption|].
    split; [assumption|].
    intros Hlast [k Hk].
    apply (Hm (S i)); [lia | lia |].
    assert (Hpos : 0 < p ^ Z.of_nat i) by (apply Z.pow_pos_nonneg; lia).
    assert (Et : t = p ^ Z.of_nat i * Z.quot t (p ^ Z.of_nat i)).
    { apply Z.quot_exact; [lia|]. apply Z.rem_divide; [lia | assumption]. }
    exists k. rewrite Nat2Z.inj_succ, Z.pow_succ_r by lia.
    rewrite Et at 1. rewrite Hk. ring.
Qed.

Lemma factor_count_strips_maximal_power_witness :
  exists i : nat,
    Z.of_nat i < 4 /\
    factor_count (Globals [1; 3; 9; 27; 0; 0; 0; 0; 0; 0] 4) 90
      = Ret (Z.of_nat i, Z.quot 90 (3 ^ Z.of_nat i)) /\
    (3 ^ Z.of_nat i | 90) /\
    (forall i' : nat, (i < i')%nat -> Z.of_nat i' < 4 -> ~ (3 ^ Z.of_nat i' | 90)) /\
    (Z.of_nat i < 4 - 1 -> ~ (3 | Z.quot 90 (3 ^ Z.of_nat i))).
Proof.
  apply (factor_count_strips_maximal_power
           (Globals [1; 3; 9; 27; 0; 0; 0; 0; 0; 0] 4) 3 90).
  - lia.
  - split; [cbn; lia|]. cbn [prime_power prime_power_count].
    intros i Hi.
    destruct i as [|[|[|[|i]]]]; try reflexivity. lia.
Defined.

(** ** The missing return of [factor_count] *)

Definition no_fall {A : Type} (c : outcome A) : Prop := c <> FellThrough.

Lemma bind_ret_inv {A B : Type} (c : outcome A) (k : A -> outcome B) (b : B) :
  bind c k = Ret b -> exists a, c = Ret a /\ k a = Ret b.
Proof. destruct c; try discriminate. intros E. eexists. split; [reflexivity | exact E]. Qed.

Lemma bind_no_fall_at {A B : Type} (c : outcome A) (k : A -> outcome B) :
  no_fall c -> (forall a, c = Ret a -> no_fall (k a)) -> no_fall (bind c k).
Proof.
  unfold no_fall. destruct c; intros Hc Hk; try discriminate.
  - apply Hk. reflexivity.
  - congruence.
Qed.

Lemma bind_no_fall {A B : Type} (c : outcome A) (k : A -> outcome B) :
  no_fall c -> (forall a, no_fall (k a)) -> no_fall (bind c k).
Proof. intros Hc Hk. apply bind_no_fall_at; auto. Qed.

Lemma ret_no_fall {A : Type} (a : A) : no_fall (Ret a).
Proof. discriminate. Qed.

Lemma rem_no_fall (a b : Z) : no_fall (Int32.rem a b).
Proof. unfold Int32.rem. destruct (Int32.faults a b); discriminate. Qed.

Lemma div_no_fall (a b : Z) : no_fall (Int32.div a b).
Proof. unfold Int32.div. destruct (Int32.faults a b); discriminate. Qed.

Create HintDb no_fall.
#[local] Hint Resolve ret_no_fall rem_no_fall div_no_fall : no_fall.

Ltac no_fall_step :=
  lazymatch goal with
  | |- no_fall (bind _ _) =>
      apply bind_no_fall;
      [| let x := fresh "v" in intros x; try (destruct x as [? ?])]
  | |- no_fall (if ?b then _ else _) => destruct b
  | |- _ => fail
  end.

Ltac no_fall_auto := repeat no_fall_step; auto with no_fall.

Lemma pow_mod_no_fall (a b m : Z) : no_fall (pow_mod a b m).
Proof.
  unfold pow_mod. destruct b as [|p|p]; auto with no_fall.
  generalize 1 as result. revert a.
  induction p as [p IH|p IH|]; intros a result; cbn [pow_mod_loop];
    no_fall_auto.
Qed.

Lemma inv_step_no_fall (s : euclid) : no_fall (inv_step s).
Proof. destruct s as [a b x y]. unfold inv_step. no_fall_auto. Qed.

Lemma inv_loop_no_fall (i : nat) : forall s, no_fall (inv_loop i s).
Proof.
  induction i as [|i IH]; intros s; cbn [inv_loop]; auto with no_fall.
  apply bind_no_fall; [apply inv_step_no_fall | auto].
Qed.

Lemma inv_mod_no_fall (a m : Z) : no_fall (inv_mod a m).
Proof.
  unfold inv_mod. apply bind_no_fall; [apply inv_loop_no_fall | auto with no_fall].
Qed.

Lemma fixed_point_sum_no_fall (n d hi lo : Z) : no_fall (fixed_point_sum n d hi lo).
Proof.
  unfold fixed_point_sum. destruct (rescale n d) as [[n' d'] r].
  unfold fixed_point_add. no_fall_auto.
Qed.

Lemma next_prime_no_fall (f : nat) : forall n, no_fall (next_prime f n).
Proof.
  induction f as [|f IH]; intros n; [discriminate|].
  rewrite next_prime_S. destruct (is_prime (Int32.add n 1)); auto with no_fall.
Qed.

#[local] Hint Resolve pow_mod_no_fall inv_mod_no_fall fixed_point_sum_no_fall
  next_prime_no_fall : no_fall.

(** What the caller has to set up: a first entry, holding 1. *)
Definition table_ready (g : globals) : Prop :=
  1 <= prime_power_count g /\ get (prime_power g) 0 = 1.

Lemma factor_scan_no_fall (g : globals) (n : Z) :
  get (prime_power g) 0 = 1 -> forall j, no_fall (factor_scan g (S j) n).
Proof.
  intros H0. induction j as [|j IH]; rewrite factor_scan_S.
  - rewrite H0, rem_pos by lia. unfold bind at 1. rewrite Z.rem_1_r.
    change (0 =? 0) with true. cbv iota. no_fall_auto.
  - no_fall_auto.
Qed.

Lemma factor_count_no_fall (g : globals) (n : Z) :
  table_ready g -> no_fall (factor_count g n).
Proof.
  intros [Hc H0]. unfold factor_count.
  destruct (Z.to_nat (prime_power_count g)) eqn:E; [lia|].
  apply factor_scan_no_fall. assumption.
Qed.

Lemma series_step_no_fall (g : globals) (prime m k : Z) (s : series) :
  table_ready g -> no_fall (series_step g prime m k s).
Proof.
  intros Hg. destruct s as [e nu de su]. unfold series_step.
  pose proof (factor_count_no_fall g) as Hf.
  repeat (no_fall_step; [solve [auto with no_fall]|]).
  auto with no_fall.
Qed.

Lemma series_loop_no_fall (g : globals) (prime m : Z) :
  table_ready g -> forall n k s, no_fall (series_loop n g prime m k s).
Proof.
  intros Hg. induction n as [|n IH]; intros k s; cbn [series_loop];
    auto with no_fall.
  apply bind_no_fall; [apply series_step_no_fall; assumption | auto].
Qed.

Lemma accumulate_prime_no_fall (start_digit N prime m e : Z) (st : pi_state) :
  table_ready (tables st) ->
  no_fall (accumulate_prime start_digit N prime m e st).
Proof.
  intros Hg. unfold accumulate_prime.
  pose proof (series_loop_no_fall (tables st) prime m Hg) as Hs.
  no_fall_auto.
Qed.

(** ** The power table built for a prime *)

Definition array_ok (g : globals) : Prop := length (prime_power g) = 10%nat.

(** Number of thresholds of [ROOT_50K] that [prime] passes. *)
Definition table_size (prime : Z) : nat :=
  length (filter (fun c => prime <=? c) ROOT_50K).

Lemma set_length (l : list Z) : forall i v, length (set l i v) = length l.
Proof.
  induction l as [|h t IH]; intros [|i] v; cbn [set length]; auto.
Qed.

Lemma build_entry_length (prime : Z) (g : globals) (i : nat) :
  length (prime_power (build_entry prime g i)) = length (prime_power g).
Proof.
  unfold build_entry. destruct (prime <=? get ROOT_50K i); [|reflexivity].
  apply set_length.
Qed.

Lemma build_table_array (prime : Z) (g : globals) :
  array_ok g -> array_ok (build_table prime g).
Proof.
  unfold array_ok, build_table. intros H.
  change (prime_power g) with (prime_power (Globals (prime_power g) 0)) in H.
  revert H. generalize (Globals (prime_power g) 0). generalize (seq 0 10).
  induction l as [|i l IH]; intros g0 H; cbn [fold_left]; [assumption|].
  apply IH. rewrite build_entry_length. assumption.
Qed.

Lemma build_entry_take (prime : Z) (g : globals) (i : nat) :
  prime <= get ROOT_50K i ->
  build_entry prime g i =
    Globals (set (prime_power g) i (Int32.pow prime (Z.of_nat i)))
            (Int32.add (prime_power_count g) 1).
Proof.
  intros H. unfold build_entry.
  destruct (Z.leb_spec prime (get ROOT_50K i)); [reflexivity | lia].
Qed.

Lemma build_entry_skip (prime : Z) (g : globals) (i : nat) :
  get ROOT_50K i < prime -> build_entry prime g i = g.
Proof.
  intros H. unfold build_entry.
  destruct (Z.leb_spec prime (get ROOT_50K i)); [lia | reflexivity].
Qed.

Ltac build_entries prime :=
  repeat match goal with
    | |- context [build_entry prime (Globals ?l ?c) ?i] =>
        first [ rewrite (build_entry_take prime (Globals l c) i) by (cbn; lia)
              | rewrite (build_entry_skip prime (Globals l c) i) by (cbn; lia) ];
        cbn [prime_power prime_power_count]
    end.

Ltac decide_thresholds prime :=
  repeat match goal with
    | |- context [prime <=? ?c] =>
        first [ rewrite (proj2 (Z.leb_le prime c)) by lia
              | rewrite (proj2 (Z.leb_gt prime c)) by lia ]
    end.

(** The thresholds fall, so the entries written are a prefix: the table
    holds [table_size prime] powers, entry [i] being [(int)pow(prime, i)],
    and the entries beyond are those of the previous prime. *)
Lemma build_table_spec (prime : Z) (g : globals) :
  array_ok g ->
  let g' := build_table prime g in
  prime_power_count g' = Z.of_nat (table_size prime) /\
  forall i : nat, (i < 10)%nat ->
    get (prime_power g') i =
      if (i <? table_size prime)%nat then Int32.pow prime (Z.of_nat i)
      else get (prime_power g) i.
Proof.
  unfold array_ok. destruct g as [pp c]. cbn [prime_power].
  intros Hlen.
  do 10 (destruct pp as [|? pp]; [discriminate|]).
  destruct pp; [|discriminate]. clear Hlen.
  unfold build_table. cbn [seq fold_left prime_power].
  unfold table_size, ROOT_50K.
  destruct (Z.leb_spec prime 50000);
  destruct (Z.leb_spec prime 223); try lia;
  destruct (Z.leb_spec prime 36); try lia;
  destruct (Z.leb_spec prime 14); try lia;
  destruct (Z.leb_spec prime 8); try lia;
  destruct (Z.leb_spec prime 6); try lia;
  destruct (Z.leb_spec prime 4); try lia;
  destruct (Z.leb_spec prime 3); try lia;
  build_entries prime;
  cbn [filter];
  decide_thresholds prime;
  cbn [set length];
  (split; [reflexivity|]);
  intros i Hi;
  do 10 (destruct i as [|i]; [reflexivity|]); lia.
Qed.

Lemma table_size_small (prime : Z) : prime <= 50000 -> (1 <= table_size prime)%nat.
Proof.
  intros H. unfold table_size, ROOT_50K. cbn [filter].
  destruct (Z.leb_spec prime 50000); [cbn [length]; lia | lia].
Qed.

Lemma table_size_large (prime : Z) : 50000 < prime -> table_size prime = 0%nat.
Proof.
  intros H. unfold table_size, ROOT_50K. cbn [filter].
  repeat match goal with
         | |- context [prime <=? ?c] => destruct (Z.leb_spec prime c); [lia|]
         end.
  reflexivity.
Qed.

Lemma build_table_ready (prime : Z) (g : globals) :
  array_ok g -> prime <= 50000 -> table_ready (build_table prime g).
Proof.
  intros Hg Hp. destruct (build_table_spec prime g Hg) as [Hc He].
  pose proof (table_size_small prime Hp) as Hs.
  split; [lia|].
  rewrite (He 0%nat) by lia.
  destruct (Nat.ltb_spec 0 (table_size prime)); [reflexivity | lia].
Qed.

Lemma pow_mod_zero_modulus (a b : Z) : 0 < b -> pow_mod a b 0 = Fault.
Proof.
  intros Hb. destruct b as [|p|p]; try lia.
  unfold pow_mod. destruct p; cbn [pow_mod_loop]; rewrite rem_zero; reflexivity.
Qed.

Lemma initial_exponent_empty (g : globals) (N : Z) :
  prime_power_count g = 0 -> initial_exponent g N = -1.
Proof. intros E. unfold initial_exponent. rewrite E. reflexivity. Qed.

Lemma pow_reciprocal (x : Z) : 2 <= x -> Int32.pow x (-1) = 0.
Proof.
  intros H. unfold Int32.pow. change (-1 <? 0) with true. cbv iota.
  destruct (Z.eqb_spec x 0); [lia|].
  destruct (Z.eqb_spec x 1); [lia|].
  destruct (Z.eqb_spec x (-1)); [lia|]. reflexivity.
Qed.

(** A prime above 50000 gets an empty table and the modulus 0; for a
    positive start digit the decimal shift then divides by zero before
    any factor is stripped. *)
Lemma pi_body_large_prime (start_digit N prime : Z) (st : pi_state) :
  array_ok (tables st) -> 50000 < prime -> 0 < start_digit ->
  pi_body start_digit N prime st = Fault.
Proof.
  intros Hg Hp Hs. unfold pi_body. cbv zeta.
  destruct (build_table_spec prime (tables st) Hg) as [Hc _].
  rewrite (table_size_large prime Hp) in Hc.
  rewrite (initial_exponent_empty _ N Hc).
  destruct (Z.eqb_spec prime 2); [lia|].
  rewrite pow_reciprocal by lia.
  unfold accumulate_prime. cbv zeta.
  rewrite pow_mod_zero_modulus by assumption. reflexivity.
Qed.

Lemma pi_body_no_fall (start_digit N prime : Z) (st : pi_state) :
  array_ok (tables st) -> prime <= 50000 \/ 0 < start_digit ->
  no_fall (pi_body start_digit N prime st).
Proof.
  intros Hg Hcase.
  destruct (Z_le_gt_dec prime 50000) as [Hp|Hp].
  - pose proof (build_table_ready prime (tables st) Hg Hp) as Hr.
    unfold pi_body. cbv zeta.
    destruct (prime =? 2); [destruct (_ =? 0)|];
      auto using accumulate_prime_no_fall with no_fall.
  - rewrite pi_body_large_prime by (assumption || lia). discriminate.
Qed.

Lemma accumulate_prime_tables (start_digit N prime m e : Z) (st st' : pi_state) :
  accumulate_prime start_digit N prime m e st = Ret st' -> tables st' = tables st.
Proof.
  unfold accumulate_prime. cbv zeta. intros E.
  apply bind_ret_inv in E. destruct E as (ds & _ & E).
  apply bind_ret_inv in E. destruct E as (s & _ & E).
  apply bind_ret_inv in E. destruct E as (su & _ & E).
  apply bind_ret_inv in E. destruct E as ([hi lo] & _ & E).
  injection E as <-. reflexivity.
Qed.

Lemma pi_body_tables (start_digit N prime : Z) (st st' : pi_state) :
  pi_body start_digit N prime st = Ret st' ->
  tables st' = build_table prime (tables st).
Proof.
  unfold pi_body. cbv zeta.
  destruct (prime =? 2); [destruct (_ =? 0)|]; intros E.
  - injection E as <-. reflexivity.
  - apply accumulate_prime_tables in E. exact E.
  - apply accumulate_prime_tables in E. exact E.
Qed.

Lemma pi_loop_no_fall (start_digit N : Z) :
  Int32.mul 3 N <= 50000 \/ 0 < start_digit ->
  forall fuel prime st,
    array_ok (tables st) -> no_fall (pi_loop fuel start_digit N prime st).
Proof.
  intros Hcase. induction fuel as [|fuel IH]; intros prime st Hg; [discriminate|].
  rewrite pi_loop_S.
  destruct (Z.leb_spec prime (Int32.mul 3 N)) as [Hp|Hp]; [|auto with no_fall].
  apply bind_no_fall_at.
  - apply pi_body_no_fall; [assumption | lia].
  - intros st' Est. apply bind_no_fall; [auto with no_fall|].
    intros prime'. apply IH.
    rewrite (pi_body_tables _ _ _ _ _ Est). apply build_table_array. assumption.
Qed.

(** C10: for every prime up to 50000 the table built by [pi_digits] has a
    first entry holding 1, so no call of [factor_count] on it reaches the
    end of the function; and for every non-negative start digit, whatever
    the loop budget, a run of [pi_digits] never ends in the missing
    return (a prime above 50000 divides by zero in the decimal shift
    before [factor_count] is called). *)
Theorem factor_count_always_returns :
  (forall prime g n,
      array_ok g -> prime <= 50000 ->
      table_ready (build_table prime g) /\
      factor_count (build_table prime g) n <> FellThrough) /\
  (forall fuel start_digit,
      0 <= start_digit -> pi_digits fuel start_digit <> FellThrough).
Proof.
  split.
  - intros prime g n Hg Hp.
    pose proof (build_table_ready prime g Hg Hp) as Hr.
    split; [assumption | apply factor_count_no_fall; assumption].
  - intros fuel start_digit Hs. unfold pi_digits.
    apply bind_no_fall; [|auto with no_fall].
    apply pi_loop_no_fall; [|reflexivity].
    destruct (Z.eq_dec start_digit 0) as [->|]; [left; vm_compute; discriminate | right; lia].
Qed.

Lemma factor_count_always_returns_witness :
  (table_ready (build_table 3 initial_globals) /\
   factor_count (build_table 3 initial_globals) 18 <> FellThrough) /\
  pi_digits 30 9 <> FellThrough.
Proof.
  destruct factor_count_always_returns as [Htab Hrun]. split.
  - apply (Htab 3 initial_globals 18); [reflexivity | lia].
  - apply (Hrun 30%nat 9). lia.
Defined.

(** ** The prime 2 *)

Lemma pow_two_zero (y : Z) : Int32.pow 2 y = 0 <-> y < 0.
Proof.
  unfold Int32.pow. destruct (Z.ltb_spec y 0) as [Hy|Hy].
  - change (2 =? 0) with false. change (2 =? 1) with false.
    change (2 =? -1) with false. cbv iota. split; [intros _; assumption | reflexivity].
  - cbv zeta. pose proof (Z.pow_pos_nonneg 2 y ltac:(lia) Hy) as Hpos.
    destruct (Int32.in_range (2 ^ y)); unfold Int32.INT_MIN; lia.
Qed.

Lemma next_prime_after_two (fuel : nat) : next_prime (S fuel) 2 = Ret 3.
Proof. rewrite next_prime_S. reflexivity. Qed.

Lemma pi_body_two (start_digit N : Z) (st : pi_state) :
  pi_body start_digit N 2 st =
    let g := build_table 2 (tables st) in
    let exponent := Int32.add (initial_exponent g N) (Int32.sub N 1) in
    let m := Int32.pow 2 (Int32.sub exponent start_digit) in
    if m =? 0 then Ret (PiState g (sum st) (sum_low st))
    else accumulate_prime start_digit N 2 m exponent
                           (PiState g (sum st) (sum_low st)).
Proof. unfold pi_body. change (2 =? 2) with true. cbv iota. reflexivity. Qed.

Lemma accumulate_prime_two (start_digit N m e : Z) (st : pi_state) :
  accumulate_prime start_digit N 2 m e st =
    decimal_shift <- pow_mod 5 start_digit m ;;
    s <- series_loop (Z.to_nat N) (tables st) 2 m 1 (Series e 1 1 0) ;;
    subtotal <- Int32.rem (Int32.mul (subtotal s) decimal_shift) m ;;
    '(hi, lo) <- fixed_point_sum subtotal m (sum st) (sum_low st) ;;
    Ret (PiState (tables st) hi lo).
Proof. unfold accumulate_prime. change (2 =? 2) with true. cbv iota zeta. reflexivity. Qed.

(** *** Arithmetic modulo a power of two

    The modulus of the prime 2 can exceed sqrt(INT32_MAX), and the
    products of [pow_mod] then wrap around.  Wrap-around and the
    truncating remainder both keep the residue modulo any divisor of
    2^32. *)

Lemma mod_mul_pow (x y n m : Z) :
  m <> 0 -> ((x mod m) * (y mod m) ^ n) mod m = (x * y ^ n) mod m.
Proof.
  intros Hm.
  rewrite (Z.mul_mod (x mod m)), Z.mod_mod, Z.mod_pow_l by assumption.
  rewrite <- Z.mul_mod by assumption. reflexivity.
Qed.

Lemma wrap_congruent (z m : Z) :
  m <> 0 -> (m | 4294967296) -> Int32.wrap z mod m = z mod m.
Proof.
  intros Hm [c Hc]. unfold Int32.wrap.
  pose proof (Z.div_mod (z + 2147483648) 4294967296 ltac:(lia)) as E.
  set (q := (z + 2147483648) / 4294967296) in *.
  assert (Eq : - q * c * m = - q * 4294967296) by (rewrite Hc; ring).
  replace ((z + 2147483648) mod 4294967296 - 2147483648)
    with (z + (- q * c) * m) by lia.
  apply Z.mod_add. assumption.
Qed.

Lemma rem_congruent (x m : Z) : m <> 0 -> Z.rem x m mod m = x mod m.
Proof.
  intros Hm. pose proof (Z.quot_rem' x m) as E.
  replace (Z.rem x m) with (x + (- Z.quot x m) * m) by lia.
  apply Z.mod_add. assumption.
Qed.

(** One [x * y % m] of the loop. *)
Lemma rem_mul_congruent (x y m : Z) :
  m <> 0 -> m <> -1 -> (m | 4294967296) ->
  exists r, Int32.rem (Int32.mul x y) m = Ret r /\ r mod m = (x * y) mod m.
Proof.
  intros Hm Hm1 Hdiv. exists (Z.rem (Int32.mul x y) m). split.
  - unfold Int32.rem, Int32.faults.
    destruct (Z.eqb_spec m 0); [contradiction|].
    destruct (Z.eqb_spec m (-1)); [contradiction|].
    rewrite andb_false_r. reflexivity.
  - rewrite rem_congruent by assumption. unfold Int32.mul.
    apply wrap_congruent; assumption.
Qed.

Lemma pow_mod_loop_congruent (m : Z) :
  m <> 0 -> m <> -1 -> (m | 4294967296) ->
  forall p a result,
  exists r,
    pow_mod_loop p a m result = Ret r /\
    r mod m = (result * a ^ Zpos p) mod m.
Proof.
  intros Hm Hm1 Hdiv.
  induction p as [p IH|p IH|]; intros a result; cbn [pow_mod_loop].
  - destruct (rem_mul_congruent result a m Hm Hm1 Hdiv) as (r1 & E1 & C1).
    destruct (rem_mul_congruent a a m Hm Hm1 Hdiv) as (a1 & E2 & C2).
    rewrite E1. unfold bind at 1. rewrite E2. unfold bind at 1.
    destruct (IH a1 r1) as (r & E & C). exists r. split; [assumption|].
    rewrite C, Pos2Z.inj_xI.
    rewrite <- (mod_mul_pow r1 a1) by assumption. rewrite C1, C2.
    rewrite mod_mul_pow by assumption. f_equal.
    rewrite Z.pow_add_r, Z.pow_1_r, Z.pow_mul_r, Z.pow_2_r by lia. ring.
  - destruct (rem_mul_congruent a a m Hm Hm1 Hdiv) as (a1 & E2 & C2).
    rewrite E2. unfold bind at 1.
    destruct (IH a1 result) as (r & E & C). exists r. split; [assumption|].
    rewrite C, Pos2Z.inj_xO.
    rewrite <- (mod_mul_pow result a1) by assumption. rewrite C2.
    rewrite mod_mul_pow by assumption. f_equal.
    rewrite Z.pow_mul_r, Z.pow_2_r by lia. reflexivity.
  - destruct (rem_mul_congruent result a m Hm Hm1 Hdiv) as (r1 & E1 & C1).
    destruct (rem_mul_congruent a a m Hm Hm1 Hdiv) as (a1 & E2 & C2).
    rewrite E1. unfold bind at 1. rewrite E2. unfold bind at 1.
    exists r1. split; [reflexivity|]. rewrite Z.pow_1_r. assumption.
Qed.

(** Modulo a divisor of 2^32 (other than -1), [pow_mod] returns a
    representative of [a ^ b], whether or not the products wrapped. *)
Lemma pow_mod_congruent (a b m : Z) :
  m <> 0 -> m <> -1 -> (m | 4294967296) -> 0 <= b ->
  exists r, pow_mod a b m = Ret r /\ r mod m = (a ^ b) mod m.
Proof.
  intros Hm Hm1 Hdiv Hb. destruct b as [|p|p]; [| |lia].
  - exists 1. split; reflexivity.
  - unfold pow_mod.
    destruct (pow_mod_loop_congruent m Hm Hm1 Hdiv p a 1) as (r & E & C).
    exists r. split; [assumption|]. rewrite C. f_equal. ring.
Qed.

(** The values [(int)pow(2, y)] can take. *)
Lemma pow_two_divides (y : Z) :
  Int32.pow 2 y <> 0 ->
  Int32.pow 2 y <> -1 /\ (Int32.pow 2 y | 4294967296) /\
  (0 <= y /\ (y <= 30 -> Int32.pow 2 y = 2 ^ y)).
Proof.
  intros Hne. unfold Int32.pow in *.
  destruct (Z.ltb_spec y 0) as [Hy|Hy].
  - exfalso. apply Hne. reflexivity.
  - cbv zeta in *. unfold Int32.in_range.
    destruct (Z.leb_spec Int32.INT_MIN (2 ^ y)) as [_|Hbad].
    2:{ pose proof (Z.pow_pos_nonneg 2 y ltac:(lia) Hy).
        unfold Int32.INT_MIN in Hbad. lia. }
    destruct (Z.leb_spec (2 ^ y) Int32.INT_MAX) as [Hle|Hgt]; cbn [andb].
    + pose proof (Z.pow_pos_nonneg 2 y ltac:(lia) Hy) as Hpos.
      assert (Hy30 : y <= 30).
      { destruct (Z_le_gt_dec y 30) as [|Hbig]; [assumption|]. exfalso.
        pose proof (Z.pow_le_mono_r 2 31 y ltac:(lia) ltac:(lia)) as H31.
        change (2 ^ 31) with 2147483648 in H31. unfold Int32.INT_MAX in Hle. lia. }
      split; [lia|]. split; [|split; [assumption | reflexivity]].
      exists (2 ^ (32 - y)). rewrite <- Z.pow_add_r by lia.
      replace (32 - y + y) with 32 by lia. reflexivity.
    + split; [unfold Int32.INT_MIN; lia|]. split.
      * exists (-2). reflexivity.
      * split; [assumption|]. intros Hy30. exfalso.
        pose proof (Z.pow_le_mono_r 2 y 30 ltac:(lia) Hy30) as H30.
        change (2 ^ 30) with 1073741824 in H30. unfold Int32.INT_MAX in Hgt. lia.
Qed.

(** C7: in the pass for the prime 2 the modulus is recomputed as
    [(int)pow(2, exponent - start_digit)].  It is zero exactly when that
    difference is negative; the pass then leaves [sum] and [sum_low] as
    they were and the loop goes on with the prime 3.  When the modulus
    is not zero, the decimal-shift factor [d] the pass multiplies the
    subtotal by is the value of [pow_mod (5, start_digit, m)], a
    representative of [5 ^ start_digit] modulo [m] (not necessarily the
    one in [0, m): the products of [pow_mod] may wrap). *)
Theorem prime_two_full_cancellation (start_digit N : Z) (st : pi_state) :
  let g := build_table 2 (tables st) in
  let exponent := Int32.add (initial_exponent g N) (Int32.sub N 1) in
  let m := Int32.pow 2 (Int32.sub exponent start_digit) in
  (m = 0 <-> Int32.sub exponent start_digit < 0) /\
  (m = 0 ->
   pi_body start_digit N 2 st = Ret (PiState g (sum st) (sum_low st)) /\
   forall fuel, 2 <= Int32.mul 3 N ->
     pi_loop (S (S fuel)) start_digit N 2 st =
       pi_loop (S fuel) start_digit N 3 (PiState g (sum st) (sum_low st))) /\
  (m <> 0 ->
   exists d,
     pow_mod 5 start_digit m = Ret d /\
     (0 <= start_digit -> d mod m = 5 ^ start_digit mod m) /\
     pi_body start_digit N 2 st =
       s <- series_loop (Z.to_nat N) g 2 m 1 (Series exponent 1 1 0) ;;
       subtotal <- Int32.rem (Int32.mul (subtotal s) d) m ;;
       '(hi, lo) <- fixed_point_sum subtotal m (sum st) (sum_low st) ;;
       Ret (PiState g hi lo)).
Proof.
  pose proof (pi_body_two start_digit N st) as Ebody. cbv zeta in Ebody.
  intros g exponent m. fold g exponent m in Ebody.
  split; [apply pow_two_zero|]. split.
  - intros Em. rewrite Em in Ebody. change (0 =? 0) with true in Ebody.
    cbv iota in Ebody.
    split; [exact Ebody|].
    intros fuel HN. rewrite pi_loop_S.
    destruct (Z.leb_spec 2 (Int32.mul 3 N)); [|lia].
    rewrite Ebody. unfold bind at 1.
    rewrite next_prime_after_two. reflexivity.
  - intros Em.
    destruct (pow_two_divides _ Em) as (Hm1 & Hdiv & _). fold m in Hm1, Hdiv.
    assert (Hd : exists d, pow_mod 5 start_digit m = Ret d /\
                           (0 <= start_digit -> d mod m = 5 ^ start_digit mod m)).
    { destruct (Z_le_gt_dec 0 start_digit) as [Hs|Hs].
      - destruct (pow_mod_congruent 5 start_digit m Em Hm1 Hdiv Hs) as (d & E & C).
        exists d. split; [assumption | intros _; assumption].
      - exists 1. split; [|lia]. destruct start_digit; try lia. reflexivity. }
    destruct Hd as (d & Ed & Cd). exists d.
    split; [assumption|]. split; [assumption|].
    rewrite Ebody.
    destruct (Z.eqb_spec m 0); [contradiction|].
    rewrite accumulate_prime_two. cbn [tables sum sum_low].
    rewrite Ed. reflexivity.
Qed.

Lemma prime_two_full_cancellation_witness :
  (let start_digit := 300 in
   let N := term_count 300 in
   let st := PiState initial_globals 0 0 in
   pi_body start_digit N 2 st =
     Ret (PiState (build_table 2 (tables st)) (sum st) (sum_low st))) /\
  (let start_digit := 20 in
   let N := term_count 20 in
   let st := PiState initial_globals 0 0 in
   let g := build_table 2 (tables st) in
   let exponent := Int32.add (initial_exponent g N) (Int32.sub N 1) in
   let m := Int32.pow 2 (Int32.sub exponent start_digit) in
   m = 524288 /\
   exists d,
     pow_mod 5 start_digit m = Ret d /\
     (0 <= start_digit -> d mod m = 5 ^ start_digit mod m) /\
     pi_body start_digit N 2 st =
       s <- series_loop (Z.to_nat N) g 2 m 1 (Series exponent 1 1 0) ;;
       subtotal <- Int32.rem (Int32.mul (subtotal s) d) m ;;
       '(hi, lo) <- fixed_point_sum subtotal m (sum st) (sum_low st) ;;
       Ret (PiState g hi lo)).
Proof.
  split.
  - intros start_digit N st.
    refine (proj1 (proj1 (proj2 (prime_two_full_cancellation start_digit N st)) _)).
    vm_compute. reflexivity.
  - intros start_digit N st g exponent m.
    assert (Em : m = 524288) by (vm_compute; reflexivity).
    split; [exact Em|].
    refine (proj2 (proj2 (prime_two_full_cancellation start_digit N st)) _).
    fold g exponent m. rewrite Em. discriminate.
Defined.

(** ** Prime oracle *)

(** The test one table entry applies to [n]. *)
Definition passes (n q : Z) : bool := negb (Z.rem n q =? 0) || (n =? q).

Lemma prime_test_passes (n count q : Z) :
  q <> 0 -> prime_test n count q = count + (if passes n q then 1 else 0).
Proof.
  intros Hq. unfold prime_test, passes. cbv zeta.
  destruct (Z.eqb_spec n q) as [->|Hne].
  - rewrite Z.rem_same by assumption. change (0 =? 0) with true.
    cbn [negb orb]. lia.
  - destruct (Z.rem n q =? 0); cbn [negb orb]; lia.
Qed.

Lemma prime_count (n : Z) (l : list Z) :
  Forall (fun q => q <> 0) l ->
  forall count,
    fold_left (prime_test n) l count
    = count + Z.of_nat (length (filter (passes n) l)).
Proof.
  induction 1 as [|q l Hq _ IH]; intros count; cbn [fold_left filter length].
  - lia.
  - rewrite IH, prime_test_passes by assumption.
    destruct (passes n q); cbn [length]; lia.
Qed.

Lemma filter_all {A : Type} (f : A -> bool) (l : list A) :
  (length (filter f l) <= length l)%nat /\
  (length (filter f l) = length l <-> forallb f l = true).
Proof.
  induction l as [|a l [IHle IHeq]]; cbn [filter forallb length].
  - split; [lia | tauto].
  - destruct (f a); cbn [length andb].
    + split; [lia|]. rewrite <- IHeq. lia.
    + split; [lia|]. split; [lia | discriminate].
Qed.

Lemma small_primes_at_least_two : Forall (fun q => 2 <= q) SMALL_PRIMES.
Proof. unfold SMALL_PRIMES. repeat constructor; lia. Qed.

Lemma is_prime_forallb (n : Z) :
  is_prime n = forallb (passes n) SMALL_PRIMES.
Proof.
  unfold is_prime.
  rewrite prime_count.
  2:{ eapply Forall_impl; [|apply small_primes_at_least_two].
      cbv beta. intros; lia. }
  destruct (filter_all (passes n) SMALL_PRIMES) as [Hle Heq].
  change (length SMALL_PRIMES) with 47%nat in *.
  destruct (forallb (passes n) SMALL_PRIMES).
  - apply Z.eqb_eq. destruct Heq as [_ Heq]. rewrite Heq by reflexivity. reflexivity.
  - apply Z.eqb_neq. intros E. destruct Heq as [Heq _].
    assert (E' : length (filter (passes n) SMALL_PRIMES) = 47%nat) by lia.
    specialize (Heq E'). discriminate.
Qed.

Lemma passes_spec (n q : Z) :
  2 <= q -> (passes n q = true <-> ((q | n) -> n = q)).
Proof.
  intros Hq. unfold passes. split.
  - intros H Hdiv. apply orb_true_iff in H. destruct H as [H|H].
    + apply negb_true_iff, Z.eqb_neq in H. exfalso. apply H.
      apply Z.rem_divide; [lia | assumption].
    + apply Z.eqb_eq. assumption.
  - intros H. destruct (Z.eqb_spec (Z.rem n q) 0) as [E|E]; [|reflexivity].
    cbn [negb orb]. apply Z.eqb_eq. apply H. apply Z.rem_divide; [lia | assumption].
Qed.

(** [is_prime] accepts [n] exactly when no tabulated prime other than
    [n] itself divides it. *)
Lemma is_prime_spec (n : Z) :
  is_prime n = true <->
  forall q, In q SMALL_PRIMES -> (q | n) -> n = q.
Proof.
  rewrite is_prime_forallb, forallb_forall.
  pose proof small_primes_at_least_two as H2. rewrite Forall_forall in H2.
  split; intros H q Hin.
  - apply passes_spec; auto.
  - apply passes_spec; auto.
Qed.

Lemma forallb_false {A : Type} (f : A -> bool) (l : list A) :
  forallb f l = false -> exists x, In x l /\ f x = false.
Proof.
  induction l as [|a l IH]; cbn [forallb]; [discriminate|].
  destruct (f a) eqn:E; cbn [andb]; intros H.
  - destruct (IH H) as (x & Hx & Hf). exists x. split; [right; assumption | assumption].
  - exists a. split; [left; reflexivity | assumption].
Qed.

(** A rejected number has a tabulated divisor other than itself. *)
Lemma is_prime_rejects (n : Z) :
  is_prime n = false ->
  exists q, In q SMALL_PRIMES /\ (q | n) /\ n <> q.
Proof.
  rewrite is_prime_forallb. intros H.
  destruct (forallb_false _ _ H) as (q & Hq & Hf).
  pose proof small_primes_at_least_two as H2. rewrite Forall_forall in H2.
  specialize (H2 q Hq). exists q. split; [assumption|].
  unfold passes in Hf. apply orb_false_iff in Hf. destruct Hf as [Hd Hne].
  apply negb_false_iff, Z.eqb_eq in Hd. apply Z.eqb_neq in Hne.
  split; [apply Z.rem_divide; [lia | assumption] | assumption].
Qed.

(** Every number from 2 to 222 has a tabulated prime divisor. *)
Lemma small_divisor (d : Z) :
  2 <= d <= 222 -> exists q, In q SMALL_PRIMES /\ (q | d).
Proof.
  intros Hd.
  assert (Hall : forallb (fun d => existsb (fun q => Z.rem d q =? 0) SMALL_PRIMES)
                   (map Z.of_nat (seq 2 221)) = true) by (vm_compute; reflexivity).
  rewrite forallb_forall in Hall.
  specialize (Hall d).
  assert (Hin : In d (map Z.of_nat (seq 2 221))).
  { apply in_map_iff. exists (Z.to_nat d). split; [lia|]. apply in_seq. lia. }
  apply Hall in Hin. apply existsb_exists in Hin.
  destruct Hin as (q & Hq & E). exists q. split; [assumption|].
  pose proof small_primes_at_least_two as H2. rewrite Forall_forall in H2.
  specialize (H2 q Hq). apply Z.rem_divide; [lia|]. apply Z.eqb_eq. assumption.
Qed.

(** A proper divisor yields a tabulated prime divisor, as long as the
    square of the largest covered divisor exceeds [n]. *)
Lemma proper_divisor_tabulated (n g : Z) :
  2 <= n < 223 * 223 -> 1 < g < n -> (g | n) ->
  exists q, In q SMALL_PRIMES /\ (q | n) /\ q < n.
Proof.
  intros Hn Hg [k Hk].
  assert (Hkpos : 1 < k < n) by nia.
  assert (Hsmall : exists d, 2 <= d <= 222 /\ (d | n) /\ d < n).
  { destruct (Z_le_gt_dec g k).
    - exists g. repeat split; try lia; [nia | exists k; assumption].
    - exists k. repeat split; try lia; [nia | exists g; lia]. }
  destruct Hsmall as (d & Hd & Hdn & Hlt).
  destruct (small_divisor d Hd) as (q & Hq & Hqd).
  exists q. split; [assumption|]. split.
  - eapply Z.divide_trans; eassumption.
  - apply Z.divide_pos_le in Hqd; lia.
Qed.

Lemma is_prime_sound (n : Z) :
  2 <= n < 223 * 223 -> is_prime n = true -> Z.prime n.
Proof.
  intros Hn Hp. rewrite is_prime_spec in Hp.
  split; [lia|]. intros g Hg Hdiv.
  destruct (proper_divisor_tabulated n g Hn Hg Hdiv) as (q & Hq & Hqn & Hlt).
  specialize (Hp q Hq Hqn). lia.
Qed.

Lemma is_prime_complete (n : Z) : Z.prime n -> is_prime n = true.
Proof.
  intros Hp. apply is_prime_spec. intros q Hq Hdiv.
  pose proof small_primes_at_least_two as H2. rewrite Forall_forall in H2.
  specialize (H2 q Hq). pose proof (Z.prime_ge_2 n Hp) as Hn.
  destruct (Z.divide_prime_r q n Hp Hdiv) as [E|[E|[E|E]]]; lia.
Qed.

Lemma small_primes_prime (q : Z) : In q SMALL_PRIMES -> Z.prime q.
Proof.
  intros Hq.
  assert (Hall : forallb (fun q => (2 <=? q) && (q <=? 46340) && is_prime q)
                   SMALL_PRIMES = true) by (vm_compute; reflexivity).
  rewrite forallb_forall in Hall. specialize (Hall q Hq).
  apply andb_true_iff in Hall. destruct Hall as [Hr Hp].
  apply andb_true_iff in Hr. destruct Hr as [H2 H3].
  apply is_prime_sound; [lia | assumption].
Qed.

(** C4: on 2..46340 [is_prime] answers true exactly for the primes, and
    every non-prime of that range is divisible by one of the 47 tabulated
    primes (all of which are prime, 211 being the largest). *)
Theorem is_prime_correct (n : Z) :
  2 <= n <= 46340 ->
  (is_prime n = true <-> Z.prime n) /\
  (~ Z.prime n ->
   exists q, In q SMALL_PRIMES /\ Z.prime q /\ q < n /\ (q | n)) /\
  length SMALL_PRIMES = 47%nat.
Proof.
  intros Hn. assert (Hn' : 2 <= n < 223 * 223) by lia.
  split; [|split; [|reflexivity]].
  - split; [apply is_prime_sound; assumption | apply is_prime_complete].
  - intros Hnp.
    assert (Hdiv : exists g, 1 < g < n /\ (g | n)).
    { destruct (is_prime n) eqn:E.
      - exfalso. apply Hnp. apply is_prime_sound; assumption.
      - destruct (is_prime_rejects n E) as (q & Hq & Hd & Hne).
        pose proof small_primes_at_least_two as H2. rewrite Forall_forall in H2.
        specialize (H2 q Hq). exists q. split; [|assumption].
        assert (q <= n) by (apply Z.divide_pos_le; [lia | assumption]).
        lia. }
    destruct Hdiv as (g & Hg & Hgn).
    destruct (proper_divisor_tabulated n g Hn' Hg Hgn) as (q & Hq & Hqn & Hlt).
    exists q. split; [assumption|].
    split; [apply small_primes_prime; assumption|]. split; assumption.
Qed.

Lemma is_prime_correct_witness :
  (is_prime 46337 = true <-> Z.prime 46337) /\
  (~ Z.prime 46337 ->
   exists q, In q SMALL_PRIMES /\ Z.prime q /\ q < 46337 /\ (q | 46337)) /\
  length SMALL_PRIMES = 47%nat.
Proof. apply (is_prime_correct 46337). lia. Defined.

(** ** Modular inverse *)

(** *** Convergence: a bound of Lame type *)

Fixpoint fib (n : nat) : Z :=
  match n with
  | O => 0
  | S n' => match n' with
            | O => 1
            | S n'' => fib n' + fib n''
            end
  end.

Lemma fib_SS (n : nat) : fib (S (S n)) = fib (S n) + fib n.
Proof. reflexivity. Qed.

(** One division of the pair (dividend, divisor), guarded as in the
    loop: a zero divisor changes nothing.  The result is the pair for the
    next division, with the roles exchanged. *)
Definition estep (p : Z * Z) : Z * Z :=
  let (u, v) := p in
  if v =? 0 then (v, u) else (v, u mod v).

Definition done (p : Z * Z) : Prop := fst p = 0 \/ snd p = 0.

Lemma estep_done (p : Z * Z) : done p -> done (estep p).
Proof.
  destruct p as [u v]. unfold done, estep. cbn [fst snd].
  destruct (Z.eqb_spec v 0) as [->|Hv]; cbn [fst snd]; [auto|].
  intros [->|?]; [|contradiction]. right. apply Z.mod_0_l. assumption.
Qed.

Lemma iter_estep_done (k : nat) (p : Z * Z) : done p -> done (Nat.iter k estep p).
Proof.
  induction k as [|k IH]; intros H; cbn [Nat.iter]; [assumption|].
  apply estep_done. auto.
Qed.

Lemma lame (k : nat) :
  (forall u v, 0 <= v < u -> u < fib (k + 2) -> done (Nat.iter k estep (u, v))) /\
  (forall u v, 0 <= v < u -> u < fib (S k + 2) -> done (Nat.iter (S k) estep (u, v))).
Proof.
  induction k as [|k [IH0 IH1]].
  - split; intros u v Hv Hu.
    + change (fib (0 + 2)) with 1 in Hu. lia.
    + change (fib (1 + 2)) with 2 in Hu.
      assert (u = 1) by lia. assert (v = 0) by lia. subst. left. reflexivity.
  - split; [exact IH1|].
    intros u v Hv Hu.
    replace (S (S k) + 2)%nat with (S (S (k + 2))) in Hu by lia.
    rewrite fib_SS in Hu.
    rewrite Nat.iter_succ_r.
    destruct (Z.eq_dec v 0) as [->|Hv0].
    { apply iter_estep_done. left. reflexivity. }
    assert (Es : estep (u, v) = (v, u mod v)).
    { unfold estep. destruct (Z.eqb_spec v 0); [contradiction | reflexivity]. }
    rewrite Es.
    pose proof (Z.mod_pos_bound u v ltac:(lia)) as Hr.
    destruct (Z_lt_le_dec v (fib (S k + 2))) as [Hsmall|Hbig].
    + apply IH1; [lia | assumption].
    + assert (Hle : u mod v <= u - v).
      { pose proof (Z.div_mod u v Hv0) as E.
        assert (1 <= u / v) by (apply Z.div_le_lower_bound; lia).
        nia. }
      rewrite Nat.iter_succ_r.
      destruct (Z.eq_dec (u mod v) 0) as [E0|Hr0].
      { apply iter_estep_done. rewrite E0. left. reflexivity. }
      assert (Es' : estep (v, u mod v) = (u mod v, v mod (u mod v))).
      { unfold estep. destruct (Z.eqb_spec (u mod v) 0); [contradiction | reflexivity]. }
      rewrite Es'.
      pose proof (Z.mod_pos_bound v (u mod v) ltac:(lia)) as Hr'.
      apply IH0; [lia|].
      replace (S k + 2)%nat with (S (k + 2)) in Hbig by lia. lia.
Qed.

(** Below fib 24 = 46368, 22 divisions are enough. *)
Lemma euclid_converges (u v : Z) :
  0 <= v < u -> u < 46368 -> done (Nat.iter 22 estep (u, v)).
Proof.
  intros Hv Hu. apply (proj1 (lame 22)); [assumption|].
  change (fib (22 + 2)) with 46368. assumption.
Qed.

(** *** The loop invariant *)

Lemma guarded_div (u v : Z) :
  0 <= u -> 0 <= v ->
  (if v =? 0 then Ret 0 else Int32.div u v) = Ret (u / v).
Proof.
  intros Hu Hv. destruct (Z.eqb_spec v 0) as [->|Hne].
  - rewrite Z.div_0_r. reflexivity.
  - rewrite div_pos by lia. rewrite Z.quot_div_nonneg by lia. reflexivity.
Qed.

Lemma quotient_facts (u v : Z) :
  0 <= u -> 0 <= v ->
  0 <= u / v /\ 0 <= u - v * (u / v) <= u /\
  (v = 0 -> u / v = 0) /\
  (v, u - v * (u / v)) = estep (u, v).
Proof.
  intros Hu Hv. unfold estep. destruct (Z.eqb_spec v 0) as [->|Hne].
  - rewrite Z.div_0_r. repeat split; try lia. f_equal. lia.
  - pose proof (Z.mod_pos_bound u v ltac:(lia)) as Hr.
    pose proof (Z.div_mod u v Hne) as E.
    assert (0 <= u / v) by (apply Z.div_pos; lia).
    repeat split; try lia; try nia. f_equal. lia.
Qed.

(** Dividing [u] by [v] with cofactors [c], [d] such that
    [c * u + d * v = m]: every product the loop forms stays within
    [0, m]. *)
Lemma division_step (m u v c d q : Z) :
  0 <= u <= m -> 0 <= v <= m -> 0 <= c <= m -> 0 <= d <= m ->
  c * u + d * v = m ->
  0 <= q -> 0 <= u - v * q -> (v = 0 -> q = 0) ->
  0 <= v * q <= m /\ 0 <= c * q <= m /\ d + c * q <= m.
Proof.
  intros Hu Hv Hc Hd Hdet Hq Hr Hv0.
  destruct (Z.eq_dec v 0) as [E|Hne].
  - rewrite (Hv0 E). lia.
  - assert (1 <= v) by lia.
    assert (0 <= c * q) by nia.
    assert (0 <= d * v) by nia.
    assert (c * (v * q) <= c * u) by nia.
    assert (c * q <= c * (v * q)) by nia.
    assert (d + c * q <= (d + c * q) * v) by nia.
    repeat split; nia.
Qed.

Lemma div_zero_l (b : Z) : 0 / b = 0.
Proof.
  destruct (Z.eq_dec b 0) as [->|Hb]; [reflexivity | apply Z.div_0_l; assumption].
Qed.

Lemma mul_zero_r (a : Z) : Int32.mul a 0 = 0.
Proof. unfold Int32.mul. rewrite Z.mul_0_r. reflexivity. Qed.

Lemma sub_zero_r (a : Z) :
  Int32.INT_MIN <= a <= Int32.INT_MAX -> Int32.sub a 0 = a.
Proof. intros H. rewrite sub_id; lia. Qed.

Section Inverse.

Variables a0 m : Z.
Hypothesis Hm : 1 <= m <= 46367.
Hypothesis Ha0 : 0 <= a0 < m.

Definition euclid_inv (s : euclid) : Prop :=
  0 <= ea s <= m /\ 0 <= eb s <= m /\
  1 <= ex s <= m /\ - m <= ey s <= 0 /\
  ex s * eb s - ey s * ea s = m /\
  (m | ex s * a0 - ea s) /\ (m | ey s * a0 - eb s) /\
  Z.gcd (ea s) (eb s) = Z.gcd a0 m.

Lemma euclid_inv_start : euclid_inv (Euclid a0 m 1 0).
Proof.
  unfold euclid_inv. cbn [ea eb ex ey].
  repeat split; try lia.
  - exists 0. lia.
  - exists (-1). lia.
Qed.

Lemma inv_step_spec (s : euclid) :
  euclid_inv s ->
  exists s',
    inv_step s = Ret s' /\ euclid_inv s' /\
    (eb s', ea s') = estep (estep (eb s, ea s)).
Proof.
  destruct s as [a b x y]. unfold euclid_inv. cbn [ea eb ex ey].
  intros (Ha & Hb & Hx & Hy & Hdet & Hca & Hcb & Hg).
  unfold inv_step.
  (* first division: b by a *)
  rewrite guarded_div by lia. unfold bind at 1.
  destruct (quotient_facts b a ltac:(lia) ltac:(lia)) as (Hq1 & Hr1 & Hz1 & Es1).
  set (q1 := b / a) in *.
  destruct (division_step m b a x (- y) q1) as (P1 & P2 & P3); try lia.
  rewrite (mul_id a q1) by (unfold Int32.INT_MIN, Int32.INT_MAX; lia).
  rewrite (mul_id x q1) by (unfold Int32.INT_MIN, Int32.INT_MAX; lia).
  rewrite (sub_id b) by (unfold Int32.INT_MIN, Int32.INT_MAX; lia).
  rewrite (sub_id y) by (unfold Int32.INT_MIN, Int32.INT_MAX; lia).
  set (b' := b - a * q1) in *. set (y' := y - x * q1) in *.
  assert (Hdet1 : x * b' - y' * a = m) by (unfold b', y'; rewrite <- Hdet; ring).
  (* second division: a by b' *)
  rewrite guarded_div by lia. unfold bind at 1.
  destruct (quotient_facts a b' ltac:(lia) ltac:(lia)) as (Hq2 & Hr2 & Hz2 & Es2).
  set (q2 := a / b') in *.
  destruct (division_step m a b' (- y') x q2) as (R1 & R2 & R3); try lia.
  rewrite (mul_id b' q2) by (unfold Int32.INT_MIN, Int32.INT_MAX; lia).
  rewrite (mul_id y' q2) by (unfold Int32.INT_MIN, Int32.INT_MAX; lia).
  rewrite (sub_id a) by (unfold Int32.INT_MIN, Int32.INT_MAX; lia).
  rewrite (sub_id x) by (unfold Int32.INT_MIN, Int32.INT_MAX; lia).
  set (a' := a - b' * q2) in *. set (x' := x - y' * q2) in *.
  eexists. split; [reflexivity|]. cbn [ea eb ex ey]. split.
  - assert (Hcb' : (m | y' * a0 - b')).
    { replace (y' * a0 - b') with ((y * a0 - b) - q1 * (x * a0 - a))
        by (unfold y', b'; ring).
      apply Z.divide_sub_r; [assumption | apply Z.divide_mul_r; assumption]. }
    assert (Hg' : Z.gcd a b' = Z.gcd a0 m).
    { rewrite <- Hg. unfold b'.
      replace (b - a * q1) with (b + (- q1) * a) by ring.
      apply Z.gcd_add_mult_diag_r. }
    assert (Hdet2 : x' * b' - y' * a' = m)
      by (unfold x', a'; rewrite <- Hdet1; ring).
    assert (Hca' : (m | x' * a0 - a')).
    { replace (x' * a0 - a') with ((x * a0 - a) - q2 * (y' * a0 - b'))
        by (unfold x', a'; ring).
      apply Z.divide_sub_r; [assumption | apply Z.divide_mul_r; assumption]. }
    assert (Hg2 : Z.gcd a' b' = Z.gcd a0 m).
    { rewrite <- Hg'. unfold a'.
      replace (a - b' * q2) with (a + (- q2) * b') by ring.
      rewrite (Z.gcd_comm _ b'), (Z.gcd_comm a b').
      apply Z.gcd_add_mult_diag_r. }
    repeat (split; [lia|]).
    split; [exact Hca'|]. split; [exact Hcb'|]. exact Hg2.
  - rewrite <- Es1. rewrite <- Es2. reflexivity.
Qed.

Lemma inv_loop_spec (i : nat) :
  forall s, euclid_inv s ->
  exists s',
    inv_loop i s = Ret s' /\ euclid_inv s' /\
    (eb s', ea s') = Nat.iter (2 * i) estep (eb s, ea s).
Proof.
  induction i as [|i IH]; intros s Hs.
  - exists s. split; [reflexivity|]. split; [assumption | reflexivity].
  - destruct (inv_step_spec s Hs) as (s1 & E1 & H1 & P1).
    destruct (IH s1 H1) as (s2 & E2 & H2 & P2).
    exists s2. cbn [inv_loop]. rewrite E1. unfold bind at 1.
    split; [assumption|]. split; [assumption|].
    rewrite P2, P1.
    replace (2 * S i)%nat with (S (S (2 * i))) by lia.
    rewrite !Nat.iter_succ_r. reflexivity.
Qed.

(** Eleven passes exhaust the divisions. *)
Lemma inv_loop_converges :
  exists s,
    inv_loop 11 (Euclid a0 m 1 0) = Ret s /\ euclid_inv s /\
    (ea s = 0 \/ eb s = 0).
Proof.
  destruct (inv_loop_spec 11 _ euclid_inv_start) as (s & E & Hs & P).
  exists s. split; [assumption|]. split; [assumption|].
  cbn [ea eb] in P. change (2 * 11)%nat with 22%nat in P.
  pose proof (euclid_converges m a0 Ha0 ltac:(lia)) as D.
  rewrite <- P in D. unfold done in D. cbn [fst snd] in D. tauto.
Qed.

(** A converged state stays as it is. *)
Lemma inv_step_fixed (s : euclid) :
  euclid_inv s -> ea s = 0 \/ eb s = 0 -> inv_step s = Ret s.
Proof.
  intros Hs Hd. destruct s as [a b x y].
  unfold euclid_inv in Hs. cbn [ea eb ex ey] in *.
  destruct Hs as (Ha & Hb & Hx & Hy & _).
  unfold inv_step.
  rewrite guarded_div by lia. unfold bind at 1.
  assert (Eq1 : b / a = 0)
    by (destruct Hd as [-> | ->]; [apply Z.div_0_r | apply div_zero_l]).
  rewrite Eq1, !mul_zero_r.
  rewrite (sub_zero_r b), (sub_zero_r y)
    by (unfold Int32.INT_MIN, Int32.INT_MAX; lia).
  rewrite guarded_div by lia. unfold bind at 1.
  assert (Eq2 : a / b = 0)
    by (destruct Hd as [-> | ->]; [apply div_zero_l | apply Z.div_0_r]).
  rewrite Eq2, !mul_zero_r.
  rewrite (sub_zero_r a), (sub_zero_r x)
    by (unfold Int32.INT_MIN, Int32.INT_MAX; lia).
  reflexivity.
Qed.

Lemma inv_loop_fixed (i : nat) (s : euclid) :
  euclid_inv s -> ea s = 0 \/ eb s = 0 -> inv_loop i s = Ret s.
Proof.
  intros Hs Hd. induction i as [|i IH]; cbn [inv_loop]; [reflexivity|].
  rewrite inv_step_fixed by assumption. unfold bind at 1. exact IH.
Qed.

End Inverse.

Lemma inv_loop_app (i j : nat) :
  forall s, inv_loop (i + j) s = (s' <- inv_loop i s ;; inv_loop j s').
Proof.
  induction i as [|i IH]; intros s; cbn [Nat.add inv_loop]; [reflexivity|].
  destruct (inv_step s) as [s1| | |]; cbn [bind]; [apply IH | reflexivity..].
Qed.

Lemma no_unit_multiple (m t : Z) : 2 <= m -> m * t <> 1.
Proof. intros Hm. destruct (Z_le_gt_dec t 0); nia. Qed.

(** The inverse of a residue in [0, m). *)
Lemma inv_mod_residue (a0 m : Z) :
  2 <= m <= 46367 -> 0 <= a0 < m -> Z.gcd a0 m = 1 ->
  exists s x,
    inv_loop 11 (Euclid a0 m 1 0) = Ret s /\
    (forall j, inv_loop j s = Ret s) /\
    inv_result m s = x /\ 1 <= x < m /\ (m | x * a0 - 1).
Proof.
  intros Hm Ha Hg.
  destruct (inv_loop_converges a0 m ltac:(lia) Ha) as (s & E & Hs & Hd).
  exists s, (inv_result m s). split; [assumption|]. split.
  { intros j. apply (inv_loop_fixed a0 m); [lia | assumption | assumption]. }
  split; [reflexivity|].
  destruct s as [a b x y]. unfold euclid_inv in Hs. cbn [ea eb ex ey] in *.
  destruct Hs as (Hra & Hrb & Hx & Hy & Hdet & Hca & Hcb & Hgs).
  rewrite Hg in Hgs. unfold inv_result. cbn [eb ex ey].
  destruct (Z.eqb_spec b 0) as [Hb|Hb].
  - subst b. rewrite Z.gcd_0_r, Z.abs_eq in Hgs by lia. subst a.
    split; [|assumption].
    destruct Hca as [c Hc].
    assert (x <> m).
    { intros ->. apply (no_unit_multiple m (a0 - c)); lia. }
    lia.
  - assert (a = 0) by tauto. subst a.
    rewrite Z.gcd_0_l, Z.abs_eq in Hgs by lia. subst b.
    rewrite add_id by (unfold Int32.INT_MIN, Int32.INT_MAX; lia).
    destruct Hcb as [c Hc]. split.
    + assert (y <> 0).
      { intros ->. apply (no_unit_multiple m (- c)); lia. }
      assert (y <> - m).
      { intros ->. apply (no_unit_multiple m (- a0 - c)); lia. }
      lia.
    + exists (c + a0). lia.
Qed.

(** The inverse of any residue in (-m, m) coprime to [m]: the result
    lies in [1, m), multiplies [a] to 1 modulo [m], and the eleven
    passes have converged. *)
Lemma inv_mod_spec (a m : Z) :
  2 <= m <= 46367 -> - m < a < m -> Z.gcd a m = 1 ->
  exists x,
    inv_mod a m = Ret x /\ 1 <= x < m /\ (a * x) mod m = 1 /\
    forall i, (11 <= i)%nat ->
      inv_loop i (inv_start a m) = inv_loop 11 (inv_start a m).
Proof.
  intros Hm Ha Hg.
  set (a0 := if a <? 0 then Int32.add a m else a).
  assert (Ha0 : 0 <= a0 < m /\ (m | a0 - a)).
  { unfold a0. destruct (Z.ltb_spec a 0).
    - rewrite add_id by (unfold Int32.INT_MIN, Int32.INT_MAX; lia).
      split; [lia|]. exists 1. lia.
    - split; [lia|]. exists 0. lia. }
  destruct Ha0 as [Ha0 [c Hc]].
  assert (Hg0 : Z.gcd a0 m = 1).
  { replace a0 with (a + c * m) by lia.
    rewrite Z.gcd_comm, Z.gcd_add_mult_diag_r, Z.gcd_comm. assumption. }
  destruct (inv_mod_residue a0 m Hm Ha0 Hg0) as (s & x & E & Hfix & Ex & Hx & [d Hd]).
  exists x. unfold inv_mod, inv_start. fold a0. rewrite E. unfold bind at 1.
  rewrite Ex. split; [reflexivity|]. split; [assumption|]. split.
  - replace (a * x) with (1 + (d - c * x) * m) by nia.
    rewrite Z.mod_add by lia. apply Z.mod_small. lia.
  - intros i Hi. replace i with (11 + (i - 11))%nat by lia.
    rewrite inv_loop_app, E. unfold bind at 1. apply Hfix.
Qed.

Lemma prime_power_coprime (p k a : Z) :
  Z.prime p -> 0 <= k -> - p ^ k < a < p ^ k -> Z.gcd a p = 1 ->
  1 <= k /\ 2 <= p ^ k /\ Z.gcd a (p ^ k) = 1.
Proof.
  intros Hp Hk Ha Hg. pose proof (Z.prime_ge_2 p Hp) as Hp2.
  assert (1 <= k).
  { destruct (Z.eq_dec k 0) as [->|]; [|lia].
    change (p ^ 0) with 1 in Ha. assert (a = 0) by lia. subst a.
    rewrite Z.gcd_0_l, Z.abs_eq in Hg by lia. lia. }
  split; [assumption|]. split.
  - pose proof (Z.pow_le_mono_r p 1 k ltac:(lia) ltac:(lia)) as H1.
    rewrite Z.pow_1_r in H1. lia.
  - apply Z.coprime_pow_r; assumption.
Qed.

(** C2: for a prime power [m = p ^ k] of at most 46340 and a residue
    [a] in (-m, m) coprime to [p], [inv_mod (a, m)] returns an [x] with
    [(a * x) mod m = 1]; for [a >= 0] this is the C expression
    [a * x % m] evaluated without overflow.  The eleven passes suffice:
    any larger number of passes ends in the same state. *)
Theorem inv_mod_round_trip (p k m a : Z) :
  Z.prime p -> 0 <= k -> m = p ^ k -> m <= 46340 ->
  - m < a < m -> Z.gcd a p = 1 ->
  exists x,
    inv_mod a m = Ret x /\
    (a * x) mod m = 1 /\
    (0 <= a -> Int32.rem (Int32.mul a x) m = Ret 1) /\
    forall i, (11 <= i)%nat ->
      inv_loop i (inv_start a m) = inv_loop 11 (inv_start a m).
Proof.
  intros Hp Hk -> Hm Ha Hg.
  destruct (prime_power_coprime p k a Hp Hk Ha Hg) as (_ & Hm2 & Hgm).
  destruct (inv_mod_spec a (p ^ k) ltac:(lia) Ha Hgm) as (x & E & Hx & Hr & Hc).
  exists x. split; [assumption|]. split; [assumption|]. split; [|assumption].
  intros Ha0.
  rewrite mul_id by (unfold Int32.INT_MIN, Int32.INT_MAX; nia).
  rewrite rem_pos by lia. rewrite Z.rem_mod_nonneg by nia. rewrite Hr. reflexivity.
Qed.

Lemma inv_mod_round_trip_witness :
  exists x,
    inv_mod 17711 28657 = Ret x /\
    (17711 * x) mod 28657 = 1 /\
    (0 <= 17711 -> Int32.rem (Int32.mul 17711 x) 28657 = Ret 1) /\
    forall i, (11 <= i)%nat ->
      inv_loop i (inv_start 17711 28657) = inv_loop 11 (inv_start 17711 28657).
Proof.
  apply (inv_mod_round_trip 28657 1 28657 17711).
  - apply is_prime_sound; [lia | vm_compute; reflexivity].
  - lia.
  - reflexivity.
  - lia.
  - lia.
  - vm_compute. reflexivity.
Defined.

(** *** The range of the result, for every [a] above [-m] *)

Lemma estep_twice_fst (b a : Z) :
  fst (estep (estep (b, a))) = if a =? 0 then b else b mod a.
Proof.
  unfold estep at 2. destruct (Z.eqb_spec a 0) as [->|Ha].
  - unfold estep. destruct (b =? 0); reflexivity.
  - unfold estep. destruct (b mod a =? 0); reflexivity.
Qed.

(** The divisor [b] never grows, and the first pass from a residue
    strictly between 0 and [m] brings it below [m]. *)
Lemma inv_step_divisor (a0 m : Z) (s : euclid) :
  1 <= m <= 46367 -> euclid_inv a0 m s ->
  exists s',
    inv_step s = Ret s' /\ euclid_inv a0 m s' /\
    eb s' <= eb s /\ (0 < ea s < eb s -> eb s' < ea s).
Proof.
  intros Hm Hs.
  destruct (inv_step_spec a0 m Hm s Hs) as (s' & E & Hs' & P).
  exists s'. split; [assumption|]. split; [assumption|].
  assert (Eb : eb s' = if ea s =? 0 then eb s else eb s mod ea s).
  { rewrite <- estep_twice_fst, <- P. reflexivity. }
  destruct Hs as (Ha & Hb & _).
  destruct (Z.eqb_spec (ea s) 0) as [E0|E0].
  - split; lia.
  - pose proof (Z.mod_pos_bound (eb s) (ea s) ltac:(lia)).
    pose proof (Z.mod_le (eb s) (ea s) ltac:(lia) ltac:(lia)). split; lia.
Qed.

Lemma inv_loop_divisor (a0 m : Z) (i : nat) :
  1 <= m <= 46367 ->
  forall s, euclid_inv a0 m s ->
  exists s', inv_loop i s = Ret s' /\ euclid_inv a0 m s' /\ eb s' <= eb s.
Proof.
  intros Hm. induction i as [|i IH]; intros s Hs.
  - exists s. split; [reflexivity|]. split; [assumption | lia].
  - destruct (inv_step_divisor a0 m s Hm Hs) as (s1 & E1 & H1 & L1 & _).
    destruct (IH s1 H1) as (s2 & E2 & H2 & L2).
    exists s2. cbn [inv_loop]. rewrite E1. unfold bind at 1.
    split; [assumption|]. split; [assumption | lia].
Qed.

(** In a state of the loop whose divisor is below [m], the returned
    value lies in [0, m), converged or not. *)
Lemma inv_result_range (a0 m : Z) (s : euclid) :
  2 <= m <= 46367 -> Z.gcd a0 m = 1 -> euclid_inv a0 m s -> eb s < m ->
  0 <= inv_result m s < m.
Proof.
  intros Hm Hg Hs Hb. destruct s as [a b x y].
  unfold euclid_inv in Hs. cbn [ea eb ex ey] in *.
  destruct Hs as (Hra & Hrb & Hx & Hy & Hdet & Hca & Hcb & Hgs).
  rewrite Hg in Hgs. unfold inv_result. cbn [eb ex ey].
  destruct (Z.eqb_spec b 0) as [Hb0|Hb0].
  - subst b. rewrite Z.gcd_0_r, Z.abs_eq in Hgs by lia. subst a.
    destruct Hca as [c Hc].
    assert (x <> m).
    { intros ->. apply (no_unit_multiple m (a0 - c)); lia. }
    lia.
  - rewrite add_id by (unfold Int32.INT_MIN, Int32.INT_MAX; lia).
    assert (y <> 0).
    { intros ->. destruct Hcb as [c Hc].
      assert (Hdiv : (m | b)) by (exists (- c); lia).
      apply Z.divide_pos_le in Hdiv; lia. }
    lia.
Qed.

(** An [a] above [m] costs one pass: the first division has quotient 0
    and the second reduces [a] modulo [m]. *)
Lemma inv_step_large (a m : Z) :
  0 < m -> m < a <= Int32.INT_MAX ->
  inv_step (Euclid a m 1 0) = Ret (Euclid (a mod m) m 1 0).
Proof.
  intros Hm Ha. unfold Int32.INT_MAX in Ha. unfold inv_step.
  rewrite guarded_div by lia. unfold bind at 1.
  rewrite Z.div_small by lia. rewrite !mul_zero_r.
  rewrite !sub_zero_r by (unfold Int32.INT_MIN, Int32.INT_MAX; lia).
  rewrite guarded_div by lia. unfold bind at 1.
  pose proof (Z.div_mod a m ltac:(lia)) as E.
  pose proof (Z.mod_pos_bound a m Hm) as Hr.
  assert (0 <= a / m) by (apply Z.div_pos; lia).
  rewrite (mul_id m) by (unfold Int32.INT_MIN, Int32.INT_MAX; nia).
  rewrite (sub_id a) by (unfold Int32.INT_MIN, Int32.INT_MAX; nia).
  rewrite (mul_id 0) by (unfold Int32.INT_MIN, Int32.INT_MAX; lia).
  rewrite (sub_id 1) by (unfold Int32.INT_MIN, Int32.INT_MAX; lia).
  do 2 f_equal; lia.
Qed.

(** The passes from a residue strictly between 0 and [m]. *)
Lemma inv_loop_below (a0 m : Z) (i : nat) :
  2 <= m <= 46367 -> 0 < a0 < m -> Z.gcd a0 m = 1 ->
  exists s,
    inv_loop (S i) (Euclid a0 m 1 0) = Ret s /\
    0 <= inv_result m s < m.
Proof.
  intros Hm Ha Hg.
  pose proof (euclid_inv_start a0 m ltac:(lia) ltac:(lia)) as H0.
  destruct (inv_step_divisor a0 m _ ltac:(lia) H0)
    as (s1 & E1 & H1 & _ & L1).
  cbn [ea eb] in L1. specialize (L1 ltac:(lia)).
  destruct (inv_loop_divisor a0 m i ltac:(lia) s1 H1)
    as (s2 & E2 & H2 & L2).
  exists s2. cbn [inv_loop]. rewrite E1. unfold bind at 1.
  split; [assumption|].
  apply (inv_result_range a0); [lia | assumption | assumption | lia].
Qed.

Lemma inv_mod_range (a m : Z) :
  2 <= m <= 46367 -> - m < a <= Int32.INT_MAX -> Z.gcd a m = 1 ->
  exists x, inv_mod a m = Ret x /\ 0 <= x < m.
Proof.
  intros Hm Ha Hg.
  destruct (Z_lt_le_dec a m) as [Hsmall|Hbig].
  - destruct (inv_mod_spec a m Hm ltac:(lia) Hg) as (x & E & Hx & _).
    exists x. split; [assumption | lia].
  - assert (a <> m).
    { intros ->. rewrite Z.gcd_diag, Z.abs_eq in Hg by lia. lia. }
    assert (Hg' : Z.gcd (a mod m) m = 1).
    { rewrite Z.gcd_mod by lia. rewrite Z.gcd_comm. assumption. }
    pose proof (Z.mod_pos_bound a m ltac:(lia)) as Hr.
    assert (a mod m <> 0).
    { intros E0. rewrite E0, Z.gcd_0_l, Z.abs_eq in Hg' by lia. lia. }
    destruct (inv_loop_below (a mod m) m 9 Hm ltac:(lia) Hg') as (s & E & R).
    exists (inv_result m s). split; [|assumption].
    unfold inv_mod, inv_start.
    destruct (Z.ltb_spec a 0); [lia|].
    change (inv_loop 11 (Euclid a m 1 0))
      with (s' <- inv_step (Euclid a m 1 0) ;; inv_loop 10 s').
    rewrite inv_step_large by lia. unfold bind at 2.
    rewrite E. reflexivity.
Qed.

(** C6 (as amended): for a prime power [m = p ^ k] with [k >= 1], at most
    46340, and every [int] [a] above [- m] that is coprime to [m], the
    value returned by [inv_mod (a, m)] lies in [0, m). *)
Theorem inv_mod_in_range (p k m a : Z) :
  Z.prime p -> 1 <= k -> m = p ^ k -> m <= 46340 ->
  - m < a <= Int32.INT_MAX -> Z.gcd a m = 1 ->
  exists x, inv_mod a m = Ret x /\ 0 <= x < m.
Proof.
  intros Hp Hk -> Hm Ha Hg. pose proof (Z.prime_ge_2 p Hp) as Hp2.
  assert (Hm2 : 2 <= p ^ k).
  { pose proof (Z.pow_le_mono_r p 1 k ltac:(lia) ltac:(lia)) as H1.
    rewrite Z.pow_1_r in H1. lia. }
  apply inv_mod_range; [lia | assumption | assumption].
Qed.

Lemma inv_mod_in_range_witness :
  (exists x, inv_mod (-3) 1024 = Ret x /\ 0 <= x < 1024) /\
  (exists x, inv_mod 2147483647 28657 = Ret x /\ 0 <= x < 28657).
Proof.
  split.
  - apply (inv_mod_in_range 2 10 1024 (-3)).
    + apply is_prime_sound; [lia | vm_compute; reflexivity].
    + lia.
    + reflexivity.
    + lia.
    + unfold Int32.INT_MAX. lia.
    + vm_compute. reflexivity.
  - apply (inv_mod_in_range 28657 1 28657 2147483647).
    + apply is_prime_sound; [lia | vm_compute; reflexivity].
    + lia.
    + reflexivity.
    + lia.
    + unfold Int32.INT_MAX. lia.
    + vm_compute. reflexivity.
Defined.

(** C6, as stated, fails at the modulus 1 = 2^0: 0 is coprime to 1 and
    [inv_mod (0, 1)] returns 1, outside [0, 1).  [pi_digits] makes that
    call: for start digit 210 the modulus of the prime 2 is 1.  It also
    fails for an [a] at or below [-m], which one addition of [m] does not
    bring into range: [inv_mod (-5, 3)] returns 4. *)
Lemma inv_mod_modulus_one :
  (Z.prime 2 /\ 1 = 2 ^ 0 /\ Z.gcd 0 1 = 1 /\
   inv_mod 0 1 = Ret 1 /\ ~ (0 <= 1 < 1)) /\
  (let N := term_count 210 in
   let g := build_table 2 initial_globals in
   let exponent := Int32.add (initial_exponent g N) (Int32.sub N 1) in
   Int32.pow 2 (Int32.sub exponent 210) = 1) /\
  (Z.prime 3 /\ 3 = 3 ^ 1 /\ Z.gcd (-5) 3 = 1 /\
   inv_mod (-5) 3 = Ret 4 /\ ~ (0 <= 4 < 3)).
Proof.
  split; [|split].
  - split; [exact Z.prime_2|]. split; [reflexivity|]. split; [reflexivity|].
    split; [vm_compute; reflexivity | lia].
  - vm_compute. reflexivity.
  - split; [exact Z.prime_3|]. split; [reflexivity|]. split; [reflexivity|].
    split; [vm_compute; reflexivity | lia].
Qed.

(** * Further properties of the code *)

(** ** Modular exponentiation *)

Lemma pow_double (a : Z) (p : positive) : a ^ Zpos p~0 = (a * a) ^ Zpos p.
Proof.
  rewrite Pos2Z.inj_xO, Z.pow_mul_r by lia.
  rewrite Z.pow_2_r. reflexivity.
Qed.

Lemma pow_double_succ (a : Z) (p : positive) : a ^ Zpos p~1 = a * (a * a) ^ Zpos p.
Proof.
  rewrite Pos2Z.inj_xI, Z.pow_add_r, Z.pow_1_r, Z.pow_mul_r by lia.
  rewrite Z.pow_2_r. ring.
Qed.

Lemma rem_small_product (x y m : Z) :
  0 <= x <= 46340 -> 0 <= y <= 46340 -> 1 <= m <= 46341 ->
  Int32.rem (Int32.mul x y) m = Ret ((x * y) mod m) /\
  0 <= (x * y) mod m <= 46340.
Proof.
  intros Hx Hy Hm.
  rewrite mul_id by (unfold Int32.INT_MIN, Int32.INT_MAX; nia).
  rewrite rem_pos by lia. rewrite Z.rem_mod_nonneg by nia.
  pose proof (Z.mod_pos_bound (x * y) m ltac:(lia)). split; [reflexivity | lia].
Qed.

Lemma pow_mod_loop_spec (m : Z) :
  1 <= m <= 46341 ->
  forall p a result,
    0 <= a <= 46340 -> 0 <= result <= 46340 ->
    pow_mod_loop p a m result = Ret ((result * a ^ Zpos p) mod m).
Proof.
  intros Hm. induction p as [p IH|p IH|]; intros a result Ha Hr; cbn [pow_mod_loop].
  - destruct (rem_small_product result a m Hr Ha Hm) as [E1 B1].
    destruct (rem_small_product a a m Ha Ha Hm) as [E2 B2].
    rewrite E1. unfold bind at 1. rewrite E2. unfold bind at 1.
    rewrite IH by assumption. f_equal.
    rewrite pow_double_succ, mod_mul_pow by lia. f_equal. ring.
  - destruct (rem_small_product a a m Ha Ha Hm) as [E2 B2].
    rewrite E2. unfold bind at 1.
    rewrite IH by assumption. f_equal.
    rewrite pow_double.
    rewrite <- (mod_mul_pow result (a * a)) by lia.
    rewrite <- (mod_mul_pow result ((a * a) mod m)) by lia.
    rewrite Z.mod_mod by lia. reflexivity.
  - destruct (rem_small_product result a m Hr Ha Hm) as [E1 B1].
    destruct (rem_small_product a a m Ha Ha Hm) as [E2 B2].
    rewrite E1. unfold bind at 1. rewrite E2. unfold bind at 1.
    rewrite Z.pow_1_r. reflexivity.
Qed.

(** X1: with base and modulus below sqrt(INT32_MAX) no product
    overflows, and [pow_mod] is modular exponentiation for every
    positive exponent. *)
Theorem pow_mod_correct (a b m : Z) :
  0 <= a <= 46340 -> 1 <= m <= 46341 -> 0 < b ->
  pow_mod a b m = Ret ((a ^ b) mod m).
Proof.
  intros Ha Hm Hb. destruct b as [|p|p]; try lia.
  unfold pow_mod. rewrite pow_mod_loop_spec by lia.
  rewrite Z.mul_1_l. reflexivity.
Qed.

Lemma pow_mod_correct_witness : pow_mod 10 17 46337 = Ret ((10 ^ 17) mod 46337).
Proof. apply pow_mod_correct; lia. Defined.

(** X2: the exponent is only looked at while positive: an exponent of 0
    or below gives 1 whatever the modulus, also for the moduli 0 and 1;
    a positive exponent with modulus 0 divides by zero. *)
Theorem pow_mod_edges (a b m : Z) :
  (b <= 0 -> pow_mod a b m = Ret 1) /\
  (0 < b -> pow_mod a b 0 = Fault).
Proof.
  split.
  - intros Hb. destruct b as [|p|p]; try reflexivity. lia.
  - apply pow_mod_zero_modulus.
Qed.

Lemma pow_mod_edges_witness :
  pow_mod 10 0 1 = Ret 1 /\ pow_mod 10 210 0 = Fault.
Proof.
  split.
  - apply (proj1 (pow_mod_edges 10 0 1)). lia.
  - apply (proj2 (pow_mod_edges 10 210 0)). lia.
Defined.

(** ** Prime oracle *)

(** X3: the oracle is exact from 2 up to 223^2 - 1 = 49728 and no
    further: 223 is the first prime missing from the table, and its
    square is accepted. *)
Theorem is_prime_exact_range :
  (forall n, 2 <= n < 223 * 223 -> (is_prime n = true <-> Z.prime n)) /\
  is_prime (223 * 223) = true /\ ~ Z.prime (223 * 223).
Proof.
  split; [|split].
  - intros n Hn. split; [apply is_prime_sound; assumption | apply is_prime_complete].
  - vm_compute. reflexivity.
  - intros [_ H]. apply (H 223); [lia|]. exists 223. reflexivity.
Qed.

Lemma is_prime_exact_range_witness :
  (is_prime 49727 = true <-> Z.prime 49727).
Proof. apply (proj1 is_prime_exact_range 49727). lia. Defined.

(** X4: [next_prime] returns the smallest prime above [n]: whenever a
    prime [q] below 223^2 lies within [fuel] steps above [n], the search
    stops at a prime [p <= q] with no prime strictly between [n] and
    [p]. *)
Theorem next_prime_smallest (fuel : nat) :
  forall n q,
    1 <= n -> n < q < 223 * 223 -> Z.prime q -> q - n <= Z.of_nat fuel ->
    exists p,
      next_prime fuel n = Ret p /\ n < p <= q /\ Z.prime p /\
      forall r, n < r < p -> ~ Z.prime r.
Proof.
  induction fuel as [|fuel IH]; intros n q Hn Hq Hpq Hf; [lia|].
  rewrite next_prime_S.
  rewrite add_id by (unfold Int32.INT_MIN, Int32.INT_MAX in *; lia).
  destruct (is_prime (n + 1)) eqn:Ep.
  - exists (n + 1). split; [reflexivity|]. split; [lia|]. split.
    + apply is_prime_sound; [lia | assumption].
    + intros r Hr. lia.
  - assert (q <> n + 1).
    { intros ->. apply is_prime_complete in Hpq. congruence. }
    destruct (IH (n + 1) q ltac:(lia) ltac:(lia) Hpq ltac:(lia))
      as (p & E & Hp & Hpr & Hmin).
    exists p. split; [assumption|]. split; [lia|]. split; [assumption|].
    intros r Hr. destruct (Z.eq_dec r (n + 1)) as [->|Hne].
    + intros Hr'. apply is_prime_complete in Hr'. congruence.
    + apply Hmin. lia.
Qed.

Lemma next_prime_smallest_witness :
  exists p,
    next_prime 20 113 = Ret p /\ 113 < p <= 131 /\ Z.prime p /\
    forall r, 113 < r < p -> ~ Z.prime r.
Proof.
  apply (next_prime_smallest 20 113 131).
  - lia.
  - lia.
  - apply is_prime_sound; [lia | vm_compute; reflexivity].
  - vm_compute. discriminate.
Defined.

(** ** Power tables as [pi_digits] builds them *)

Lemma table_size_threshold (prime : Z) (i : nat) :
  (i < table_size prime)%nat -> prime <= get ROOT_50K i.
Proof.
  unfold table_size, ROOT_50K. cbn [filter].
  destruct (Z.leb_spec prime 50000);
  destruct (Z.leb_spec prime 223); try lia;
  destruct (Z.leb_spec prime 36); try lia;
  destruct (Z.leb_spec prime 14); try lia;
  destruct (Z.leb_spec prime 8); try lia;
  destruct (Z.leb_spec prime 6); try lia;
  destruct (Z.leb_spec prime 4); try lia;
  destruct (Z.leb_spec prime 3); try lia;
  cbn [length]; intros Hi;
  do 10 (destruct i as [|i]; [cbn [get nth]; lia|]); lia.
Qed.

Lemma table_size_at_most (prime : Z) : (table_size prime <= 10)%nat.
Proof. unfold table_size. apply (filter_length_le _ ROOT_50K). Qed.

Lemma pow_in_range (x y : Z) :
  0 <= y -> 0 <= x ^ y <= Int32.INT_MAX -> Int32.pow x y = x ^ y.
Proof.
  intros Hy Hr. unfold Int32.pow.
  destruct (Z.ltb_spec y 0); [lia|]. cbv zeta. unfold Int32.in_range.
  destruct (Z.leb_spec Int32.INT_MIN (x ^ y)); [|unfold Int32.INT_MIN in *; lia].
  destruct (Z.leb_spec (x ^ y) Int32.INT_MAX); [reflexivity | lia].
Qed.

Lemma tabulated_power_bound (prime : Z) (i : nat) :
  2 <= prime -> (i < table_size prime)%nat ->
  1 <= prime ^ Z.of_nat i <= 50000.
Proof.
  intros Hp Hi. pose proof (table_size_threshold prime i Hi) as Ht.
  pose proof (table_size_at_most prime) as H10.
  split; [pose proof (Z.pow_pos_nonneg prime (Z.of_nat i)); lia|].
  assert (Hmono : prime ^ Z.of_nat i <= get ROOT_50K i ^ Z.of_nat i)
    by (apply Z.pow_le_mono_l; lia).
  revert Hmono.
  do 10 (destruct i as [|i]; [vm_compute (get ROOT_50K _ ^ _); lia|]). lia.
Qed.

(** For every prime from 2 to 50000 the table built by [pi_digits]
    is a power table in the sense of [factor_count]'s contract: between 2
    and 10 entries, entry [i] holding exactly [prime ^ i], none above
    50000 - whatever the previous prime left in the array. *)
Lemma build_table_powers (prime : Z) (g : globals) :
  array_ok g -> 2 <= prime <= 50000 ->
  let g' := build_table prime g in
  power_table prime g' /\
  2 <= prime_power_count g' <= 10 /\
  forall i : nat, Z.of_nat i < prime_power_count g' ->
                  1 <= get (prime_power g') i <= 50000.
Proof.
  intros Hg Hp. cbv zeta.
  destruct (build_table_spec prime g Hg) as [Hc He].
  pose proof (table_size_at_most prime) as H10.
  assert (H2 : (2 <= table_size prime)%nat).
  { unfold table_size, ROOT_50K. cbn [filter].
    destruct (Z.leb_spec prime 50000); [cbn [length]; lia | lia]. }
  assert (Hentry : forall i : nat, Z.of_nat i < prime_power_count (build_table prime g) ->
            get (prime_power (build_table prime g)) i = prime ^ Z.of_nat i /\
            1 <= prime ^ Z.of_nat i <= 50000).
  { intros i Hi. rewrite Hc in Hi.
    rewrite (He i) by lia.
    destruct (Nat.ltb_spec i (table_size prime)) as [Hlt|]; [|lia].
    pose proof (tabulated_power_bound prime i ltac:(lia) Hlt) as Hb.
    split; [|assumption].
    apply pow_in_range; [lia | unfold Int32.INT_MAX; lia]. }
  split; [|split].
  - split; [lia|]. intros i Hi. apply Hentry. assumption.
  - lia.
  - intros i Hi. destruct (Hentry i Hi) as [E Hb]. rewrite E. assumption.
Qed.

(** X5: for every prime from 2 to 50000 the table built by [pi_digits]
    is a power table in the sense of [factor_count]'s contract: between 2
    and 10 entries, entry [i] holding exactly [prime ^ i], none above
    50000 - whatever the previous prime left in the array. *)
Theorem build_table_power_table (prime : Z) (g : globals) :
  array_ok g -> 2 <= prime <= 50000 ->
  let g' := build_table prime g in
  power_table prime g' /\
  2 <= prime_power_count g' <= 10 /\
  forall i : nat, Z.of_nat i < prime_power_count g' ->
                  1 <= get (prime_power g') i <= 50000.
Proof. apply build_table_powers. Qed.

Lemma build_table_power_table_witness :
  let g' := build_table 7 (build_table 2 initial_globals) in
  power_table 7 g' /\
  2 <= prime_power_count g' <= 10 /\
  forall i : nat, Z.of_nat i < prime_power_count g' ->
                  1 <= get (prime_power g') i <= 50000.
Proof.
  apply (build_table_power_table 7 (build_table 2 initial_globals)).
  - apply build_table_array. reflexivity.
  - lia.
Defined.

(** X6: a prime above 50000 passes no threshold: its table is empty,
    [factor_count] on it runs off the end for every argument, and the
    working modulus is [(int)pow(prime, -1) = 0], so that a pass with a
    positive start digit stops with a division by zero in the decimal
    shift. *)
Theorem large_prime_pass (start_digit N prime : Z) (st : pi_state) :
  array_ok (tables st) -> 50000 < prime ->
  let g := build_table prime (tables st) in
  prime_power_count g = 0 /\
  (forall n, factor_count g n = FellThrough) /\
  Int32.pow prime (initial_exponent g N) = 0 /\
  (0 < start_digit -> pi_body start_digit N prime st = Fault).
Proof.
  intros Hg Hp. cbv zeta.
  destruct (build_table_spec prime (tables st) Hg) as [Hc _].
  rewrite (table_size_large prime Hp) in Hc.
  split; [assumption|]. split; [|split].
  - intros n. unfold factor_count. rewrite Hc. reflexivity.
  - rewrite (initial_exponent_empty _ N Hc). apply pow_reciprocal. lia.
  - intros Hs. apply pi_body_large_prime; assumption.
Qed.

Lemma large_prime_pass_witness :
  let g := build_table 50021 initial_globals in
  prime_power_count g = 0 /\
  (forall n, factor_count g n = FellThrough) /\
  Int32.pow 50021 (initial_exponent g 16738) = 0 /\
  (0 < 18900 -> pi_body 18900 16738 50021 (PiState initial_globals 0 0) = Fault).
Proof.
  apply (large_prime_pass 18900 16738 50021 (PiState initial_globals 0 0)).
  - reflexivity.
  - lia.
Defined.

(** ** Fixed-point accumulator, continued *)

(** X7: away from the one low sum that the carry test misses
    ([lo + frac_low n d = 10^9]) the routine is truncating 18-digit
    addition modulo 1: the pair read as [hi * 10^9 + lo] grows by
    [floor (n * 10^18 / d)], modulo 10^18. *)
Theorem accumulator_exact_off_boundary (n d hi lo : Z) :
  fraction_ok n d -> word_ok hi -> word_ok lo ->
  lo + frac_low n d <> WORD ->
  exists hi' lo',
    fixed_point_sum n d hi lo = Ret (hi', lo') /\
    hi' * WORD + lo' =
      Z.modulo (hi * WORD + lo + Z.div (n * (WORD * WORD)) d) (WORD * WORD).
Proof. apply fixed_point_sum_exact. Qed.

Lemma accumulator_exact_off_boundary_witness :
  exists hi' lo',
    fixed_point_sum 5 8388608 999999999 999999999 = Ret (hi', lo') /\
    hi' * WORD + lo' =
      Z.modulo (999999999 * WORD + 999999999 + Z.div (5 * (WORD * WORD)) 8388608)
               (WORD * WORD).
Proof.
  apply (accumulator_exact_off_boundary 5 8388608 999999999 999999999).
  - split; [lia|]. right. exists 23. split; [lia | reflexivity].
  - unfold word_ok, WORD. lia.
  - unfold word_ok, WORD. lia.
  - vm_compute. discriminate.
Defined.

(** X8: folding any sequence of fractions that respect the contract,
    from a pair of words in range, returns normally with both words in
    [0, 10^9). *)
Theorem accumulate_keeps_words (fs : list (Z * Z)) (acc : Z * Z) :
  Forall (fun f => fraction_ok (fst f) (snd f)) fs ->
  word_ok (fst acc) -> word_ok (snd acc) ->
  exists acc', accumulate fs acc = Ret acc' /\ word_ok (fst acc') /\ word_ok (snd acc').
Proof. intros Hfs Hhi Hlo. apply accumulate_words; assumption. Qed.

Lemma accumulate_keeps_words_witness :
  exists acc',
    accumulate [(1, 1024); (3, 1024); (1, 3)] (0, 0) = Ret acc' /\
    word_ok (fst acc') /\ word_ok (snd acc').
Proof.
  apply (accumulate_keeps_words [(1, 1024); (3, 1024); (1, 3)] (0, 0)).
  - repeat constructor; cbn [fst snd]; try lia; left; lia.
  - unfold word_ok, WORD. cbn [fst]. lia.
  - unfold word_ok, WORD. cbn [snd]. lia.
Defined.

(** X9: the routine divides only by the (rescaled) denominator: it
    returns normally for every positive [d], whatever the other
    arguments, and stops with a division by zero for [d = 0]. *)
Theorem fixed_point_sum_defined (n d hi lo : Z) :
  (0 < d -> exists r, fixed_point_sum n d hi lo = Ret r) /\
  (d = 0 -> fixed_point_sum n d hi lo = Fault).
Proof.
  split.
  - intros Hd. unfold fixed_point_sum, rescale.
    destruct (Z.ltb_spec 60000 d) as [Hbig|Hsmall].
    + assert (Hq : 0 < Z.quot d 256).
      { rewrite Z.quot_div_nonneg by lia.
        apply Z.div_str_pos. lia. }
      cbv zeta. unfold fixed_point_add.
      repeat (rewrite ?(div_pos _ _ Hq), ?(rem_pos _ _ Hq); unfold bind at 1).
      eexists. reflexivity.
    + cbv zeta. unfold fixed_point_add.
      repeat (rewrite ?(div_pos _ _ Hd), ?(rem_pos _ _ Hd); unfold bind at 1).
      eexists. reflexivity.
  - intros ->. reflexivity.
Qed.

Lemma fixed_point_sum_defined_witness :
  (exists r, fixed_point_sum (-372608) 1048576 0 0 = Ret r) /\
  fixed_point_sum 1 0 0 0 = Fault.
Proof.
  split.
  - apply (proj1 (fixed_point_sum_defined (-372608) 1048576 0 0)). lia.
  - apply (proj2 (fixed_point_sum_defined 1 0 0 0)). reflexivity.
Defined.

(** ** Modular inverse, continued *)

(** X10: the inverse does not need a prime power.  For every modulus
    from 2 to 46367 = fib 24 - 1 and every [a] in (-m, m) coprime to it,
    eleven passes finish the Euclidean algorithm and the result is the
    inverse of [a] in [1, m). *)
Theorem inv_mod_any_modulus (a m : Z) :
  2 <= m <= 46367 -> - m < a < m -> Z.gcd a m = 1 ->
  exists x, inv_mod a m = Ret x /\ 1 <= x < m /\ (a * x) mod m = 1.
Proof.
  intros Hm Ha Hg.
  destruct (inv_mod_spec a m Hm Ha Hg) as (x & E & Hx & Hr & _).
  exists x. auto.
Qed.

Lemma inv_mod_any_modulus_witness :
  exists x, inv_mod (-28657) 46367 = Ret x /\ 1 <= x < 46367 /\
            (-28657 * x) mod 46367 = 1.
Proof.
  apply (inv_mod_any_modulus (-28657) 46367).
  - lia.
  - lia.
  - vm_compute. reflexivity.
Defined.

(** ** The calling shell, continued *)

(** X11: nothing is computed for an empty range.  With a first digit
    other than 0 that is an end digit below the first; with first digit 0
    the shell prints "3." and moves the start to 1, so that an end digit
    of 0 or below (also the default end, equal to the start) gives the
    prefix alone. *)
Theorem main_digits_empty_range (fuel : nat) (start end_digit : Z) :
  Int32.INT_MIN < start <= Int32.INT_MAX ->
  (if start =? 0 then end_digit <= 0 else end_digit < start) ->
  main_digits fuel start end_digit = Ret (start =? 0, []).
Proof.
  intros Hs He. unfold main_digits. cbv zeta.
  destruct (Z.eqb_spec start 0) as [->|Hne].
  - change (Int32.sub (Int32.add 0 1) 1) with 0.
    rewrite print_blocks_done by lia. reflexivity.
  - rewrite sub_id by (unfold Int32.INT_MIN, Int32.INT_MAX in *; lia).
    rewrite print_blocks_done by lia. reflexivity.
Qed.

Lemma main_digits_empty_range_witness :
  main_digits 5 0 0 = Ret (true, []) /\ main_digits 5 20 10 = Ret (false, []).
Proof.
  split.
  - apply (main_digits_empty_range 5 0 0); [vm_compute; split; [reflexivity | discriminate] | cbn; lia].
  - apply (main_digits_empty_range 5 20 10); [vm_compute; split; [reflexivity | discriminate] | cbn; lia].
Defined.

(** X12: with the default end digit (equal to a start digit of at least
    1) the shell prints exactly one block, the one [pi_digits] returns
    for [start - 1]. *)
Theorem main_digits_single_block (fuel : nat) (start block : Z) :
  1 <= start <= 1000000000 -> (1 <= fuel)%nat ->
  pi_digits fuel (start - 1) = Ret block ->
  main_digits fuel start start = Ret (false, [block]).
Proof.
  intros Hs Hf E. unfold main_digits. cbv zeta.
  destruct (Z.eqb_spec start 0) as [|_]; [lia|].
  rewrite sub_id by (unfold Int32.INT_MIN, Int32.INT_MAX; lia).
  destruct fuel as [|fuel']; [lia|].
  cbn [print_blocks].
  destruct (Z.ltb_spec (start - 1) start); [|lia].
  rewrite E. unfold bind at 2.
  rewrite add_id by (unfold Int32.INT_MIN, Int32.INT_MAX; lia).
  rewrite print_blocks_done by lia. reflexivity.
Qed.

Lemma main_digits_single_block_witness :
  main_digits 21 1 1 = Ret (false, [141592653]).
Proof.
  apply (main_digits_single_block 21 1 141592653).
  - lia.
  - lia.
  - vm_compute. reflexivity.
Defined.

(** ** The digit-block extractor, continued *)

Definition exponent_step (g : globals) (N : Z) (exponent : Z) (i : nat) : Z :=
  if get (prime_power g) i <=? Int32.mul 3 N
  then Int32.add exponent 1 else exponent.

Lemma initial_exponent_fold (g : globals) (N : Z) :
  initial_exponent g N =
    fold_left (exponent_step g N) (seq 0 (Z.to_nat (prime_power_count g))) (-1).
Proof. reflexivity. Qed.

(** The counter after the first [c] entries: [e + 1] of them are at most
    [3 * N], and on a power table these are the first [e + 1]. *)
Lemma exponent_prefix (g : globals) (N p : Z) :
  1 <= p -> power_table p g -> prime_power_count g <= 10 ->
  forall c : nat,
    Z.of_nat c <= prime_power_count g ->
    let e := fold_left (exponent_step g N) (seq 0 c) (-1) in
    -1 <= e < Z.of_nat c /\
    (forall i : nat, Z.of_nat i <= e -> p ^ Z.of_nat i <= Int32.mul 3 N) /\
    (forall i : nat, e < Z.of_nat i < Z.of_nat c -> Int32.mul 3 N < p ^ Z.of_nat i).
Proof.
  intros Hp [Hc Htab] H10. induction c as [|c IH]; intros Hle; cbv zeta.
  - cbn [seq fold_left]. split; [lia|]. split; intros i Hi; lia.
  - rewrite seq_S, fold_left_app. cbn [fold_left Nat.add].
    destruct IH as (He & Hlow & Hhigh); [lia|].
    set (e := fold_left (exponent_step g N) (seq 0 c) (-1)) in *.
    assert (Estep : exponent_step g N e c =
                      if p ^ Z.of_nat c <=? Int32.mul 3 N then e + 1 else e).
    { unfold exponent_step. rewrite Htab by lia.
      destruct (p ^ Z.of_nat c <=? Int32.mul 3 N); [|reflexivity].
      apply add_id. unfold Int32.INT_MIN, Int32.INT_MAX. lia. }
    rewrite Estep. clear Estep.
    destruct (Z.leb_spec (p ^ Z.of_nat c) (Int32.mul 3 N)) as [Hin|Hout].
    + assert (Ee : e = Z.of_nat c - 1).
      { destruct (Z.eq_dec e (Z.of_nat c - 1)) as [|Hne]; [assumption|].
        exfalso.
        assert (Hbad : Int32.mul 3 N < p ^ Z.of_nat (Z.to_nat (e + 1))).
        { apply Hhigh. lia. }
        assert (p ^ Z.of_nat (Z.to_nat (e + 1)) <= p ^ Z.of_nat c)
          by (apply Z.pow_le_mono_r; lia).
        lia. }
      split; [lia|]. split.
      * intros i Hi. destruct (Z.eq_dec (Z.of_nat i) (Z.of_nat c)) as [E|Hne].
        -- rewrite E. assumption.
        -- apply Hlow. lia.
      * intros i Hi. lia.
    + split; [lia|]. split; [assumption|].
      intros i Hi. destruct (Z.eq_dec (Z.of_nat i) (Z.of_nat c)) as [E|Hne].
      * rewrite E. assumption.
      * apply Hhigh. lia.
Qed.

(** X13: for a prime from 2 to 50000 that does not exceed [3 * N], the
    working modulus [(int)pow(prime, exponent)] is the largest tabulated
    power of the prime that is at most [3 * N]: a power with exponent at
    least 1, between the prime and 50000. *)
Theorem working_modulus (prime N : Z) (g : globals) :
  array_ok g -> 2 <= prime <= 50000 -> prime <= Int32.mul 3 N ->
  let g' := build_table prime g in
  let e := initial_exponent g' N in
  1 <= e < prime_power_count g' /\
  Int32.pow prime e = prime ^ e /\
  prime <= prime ^ e <= Int32.mul 3 N /\ prime ^ e <= 50000 /\
  (e + 1 < prime_power_count g' -> Int32.mul 3 N < prime ^ (e + 1)).
Proof.
  intros Hg Hp HN. cbv zeta.
  destruct (build_table_powers prime g Hg Hp) as (Htab & Hcount & Hentries).
  set (g' := build_table prime g) in *.
  pose proof (exponent_prefix g' N prime ltac:(lia) Htab ltac:(lia)
                (Z.to_nat (prime_power_count g')) ltac:(lia)) as H.
  cbv zeta in H. rewrite <- initial_exponent_fold in H.
  set (e := initial_exponent g' N) in *.
  destruct H as (He & Hlow & Hhigh).
  assert (He1 : 1 <= e).
  { destruct (Z_lt_le_dec e 1) as [Hlt|]; [|assumption]. exfalso.
    assert (Hbad : Int32.mul 3 N < prime ^ Z.of_nat 1) by (apply Hhigh; lia).
    change (Z.of_nat 1) with 1 in Hbad. rewrite Z.pow_1_r in Hbad. lia. }
  assert (Hpe : prime ^ e <= Int32.mul 3 N).
  { specialize (Hlow (Z.to_nat e)). rewrite Z2Nat.id in Hlow by lia.
    apply Hlow. lia. }
  assert (Hb : 1 <= prime ^ e <= 50000).
  { specialize (Hentries (Z.to_nat e)).
    destruct Htab as [_ Htab]. specialize (Htab (Z.to_nat e)).
    rewrite Z2Nat.id in * by lia. rewrite <- Htab by lia. apply Hentries. lia. }
  split; [lia|]. split; [|split; [|split]].
  - apply pow_in_range; [lia | unfold Int32.INT_MAX; lia].
  - split; [|assumption].
    pose proof (Z.pow_le_mono_r prime 1 e ltac:(lia) ltac:(lia)) as H1.
    rewrite Z.pow_1_r in H1. assumption.
  - lia.
  - intros Hnext. specialize (Hhigh (Z.to_nat (e + 1))).
    rewrite Z2Nat.id in Hhigh by lia. apply Hhigh. lia.
Qed.

Lemma working_modulus_witness :
  let g' := build_table 3 initial_globals in
  let e := initial_exponent g' 16 in
  1 <= e < prime_power_count g' /\
  Int32.pow 3 e = 3 ^ e /\
  3 <= 3 ^ e <= Int32.mul 3 16 /\ 3 ^ e <= 50000 /\
  (e + 1 < prime_power_count g' -> Int32.mul 3 16 < 3 ^ (e + 1)).
Proof.
  apply (working_modulus 3 16 initial_globals).
  - reflexivity.
  - lia.
  - vm_compute. discriminate.
Defined.

Lemma term_count_exact (start_digit : Z) :
  -9000000 <= start_digit <= 9000000 ->
  term_count start_digit = Z.quot ((start_digit + 19) * 238) 269.
Proof.
  intros H. unfold term_count.
  rewrite add_id by (unfold Int32.INT_MIN, Int32.INT_MAX; lia).
  rewrite mul_id by (unfold Int32.INT_MIN, Int32.INT_MAX; lia).
  reflexivity.
Qed.

(** X14: from start digit 216 on (and as long as [N] is computed
    without overflow) the prime 2 is always skipped: the exponent
    [N + 8] at most stays below the start digit, the modulus is 0 and
    the pass returns the accumulator as it found it. *)
Theorem prime_two_skipped (start_digit : Z) (st : pi_state) :
  array_ok (tables st) -> 216 <= start_digit <= 9000000 ->
  pi_body start_digit (term_count start_digit) 2 st =
    Ret (PiState (build_table 2 (tables st)) (sum st) (sum_low st)).
Proof.
  intros Hg Hs. rewrite pi_body_two. cbv zeta.
  match goal with
  | |- (if ?m =? 0 then _ else _) = _ => assert (Em : m = 0)
  end.
  2:{ rewrite Em. reflexivity. }
  apply pow_two_zero.
  rewrite term_count_exact by lia.
  set (N := Z.quot ((start_digit + 19) * 238) 269).
  assert (HN : 0 <= N /\ 269 * N <= (start_digit + 19) * 238).
  { unfold N. rewrite Z.quot_div_nonneg by lia. split.
    - apply Z.div_pos; lia.
    - apply Z.mul_div_le. lia. }
  destruct (build_table_powers 2 (tables st) Hg ltac:(lia)) as (Htab & Hcount & _).
  set (g := build_table 2 (tables st)) in *.
  pose proof (exponent_prefix g N 2 ltac:(lia) Htab ltac:(lia)
                (Z.to_nat (prime_power_count g)) ltac:(lia)) as H.
  cbv zeta in H. rewrite <- initial_exponent_fold in H.
  destruct H as (He & _).
  rewrite (sub_id N) by (unfold Int32.INT_MIN, Int32.INT_MAX; lia).
  rewrite add_id by (unfold Int32.INT_MIN, Int32.INT_MAX; lia).
  rewrite sub_id by (unfold Int32.INT_MIN, Int32.INT_MAX; lia).
  lia.
Qed.

Lemma prime_two_skipped_witness :
  pi_body 216 (term_count 216) 2 (PiState initial_globals 0 0) =
    Ret (PiState (build_table 2 initial_globals) 0 0).
Proof.
  apply (prime_two_skipped 216 (PiState initial_globals 0 0)).
  - reflexivity.
  - lia.
Defined.

(** X15: a start digit of -18 or below (down to -9000000) asks for no
    series term: [N <= 0], the loop over the primes is not entered and
    the result is 0. *)
Theorem pi_digits_negative_start (fuel : nat) (start_digit : Z) :
  (1 <= fuel)%nat -> -9000000 <= start_digit <= -18 ->
  pi_digits fuel start_digit = Ret 0.
Proof.
  intros Hf Hs. unfold pi_digits. rewrite term_count_exact by lia.
  set (N := Z.quot ((start_digit + 19) * 238) 269).
  assert (HN : -8000000 <= N <= 0).
  { unfold N. destruct (Z.eq_dec start_digit (-18)) as [->|Hne].
    - vm_compute. split; discriminate.
    - rewrite <- (Z.opp_involutive ((start_digit + 19) * 238)).
      rewrite Z.quot_opp_l by lia.
      rewrite Z.quot_div_nonneg by lia.
      assert (0 <= - ((start_digit + 19) * 238) / 269) by (apply Z.div_pos; lia).
      assert (- ((start_digit + 19) * 238) / 269 < 8000000)
        by (apply Z.div_lt_upper_bound; lia).
      lia. }
  destruct fuel as [|fuel']; [lia|].
  rewrite pi_loop_S.
  rewrite mul_id by (unfold Int32.INT_MIN, Int32.INT_MAX; lia).
  destruct (Z.leb_spec 2 (3 * N)); [lia|]. reflexivity.
Qed.

Lemma pi_digits_negative_start_witness : pi_digits 1 (-18) = Ret 0.
Proof. apply (pi_digits_negative_start 1 (-18)); lia. Defined.
